(** * GCT website scripts: a shallow embedding and its properties

The two scripts of the site (the main application script and the
scroll-reveal script) are event handlers over the browser's document.
They are embedded here as pure functions over an explicit page state:

- the class lists of the elements are a finite map from node identity
  to a finite set of class names;
- timers ([setTimeout], [setInterval]) and animation frames
  ([requestAnimationFrame]) are explicit queues and counters in the
  state, and the browser's event loop is a function that drains them;
- JavaScript numbers are exact rationals ([Q]), extended with [NaN] and
  the infinities where the code can produce them; the rounding of IEEE
  doubles and the sign of zero are not modelled. *)

From Stdlib Require Import ZArith QArith Qround Qminmax String Ascii List Lia.
From Stdlib Require Import DecimalString Lqa Sorted.
From stdpp Require Import gmap strings list.

Local Open Scope string_scope.
Local Open Scope nat_scope.
Local Open Scope list_scope.

(** ** The document: nodes and their class lists *)

Module Dom.

(** A node of the document, by identity. *)
Definition elem := nat.

(** [el.classList] as a set; a node the map does not list has no class. *)
Definition classList (d : gmap nat (gset string)) (e : elem) : gset string :=
  default ∅ (d !! e).

(** [el.classList.add(c)] *)
Definition classList_add (c : string) (e : elem) (d : gmap nat (gset string))
  : gmap nat (gset string) :=
  <[e := {[c]} ∪ classList d e]> d.

(** [el.classList.remove(c)] *)
Definition classList_remove (c : string) (e : elem) (d : gmap nat (gset string))
  : gmap nat (gset string) :=
  <[e := classList d e ∖ {[c]}]> d.

(** [el.classList.contains(c)] *)
Definition classList_contains (c : string) (e : elem) (d : gmap nat (gset string))
  : bool :=
  bool_decide (c ∈ classList d e).

(** [el.classList.toggle(c)] *)
Definition classList_toggle (c : string) (e : elem) (d : gmap nat (gset string))
  : gmap nat (gset string) :=
  if classList_contains c e d then classList_remove c e d
  else classList_add c e d.

(** [el.classList.toggle(c, force)] *)
Definition classList_toggle_force (c : string) (force : bool) (e : elem)
    (d : gmap nat (gset string)) : gmap nat (gset string) :=
  if force then classList_add c e d else classList_remove c e d.

End Dom.

(** ** Page loader overlay ([class PageLoader], main script) *)

Module PageLoader.
Import Dom.

(** The callbacks the loader hands to [setTimeout]. *)
Inductive task :=
| HideAfterLoad   (* [() => this.hide()], set 500ms after the load event *)
| CeilingCheck    (* the 3000ms fallback, guarded by [contains('hidden')] *)
| RemoveLoader.   (* [() => this.loader.remove()] *)

#[global] Instance task_eq_dec : EqDecision task.
Proof. solve_decision. Defined.

Inductive readyState := Loading | Interactive | Complete.

Record state := mkState {
  loader : elem;                      (* [this.loader] *)
  doc : gmap nat (gset string);       (* class lists *)
  attached : bool;                    (* the loader is still in the document *)
  now : nat;                          (* clock, ms *)
  timers : list (nat * task);         (* pending timeouts, earliest first *)
  load_listener : bool                (* a listener for [load] is registered *)
}.

Definition set_doc (d : gmap nat (gset string)) (s : state) : state :=
  mkState (loader s) d (attached s) (now s) (timers s) (load_listener s).
Definition set_attached (b : bool) (s : state) : state :=
  mkState (loader s) (doc s) b (now s) (timers s) (load_listener s).
Definition set_timers (q : list (nat * task)) (s : state) : state :=
  mkState (loader s) (doc s) (attached s) (now s) q (load_listener s).
Definition set_now (t : nat) (s : state) : state :=
  mkState (loader s) (doc s) (attached s) t (timers s) (load_listener s).
Definition set_load_listener (b : bool) (s : state) : state :=
  mkState (loader s) (doc s) (attached s) (now s) (timers s) b.

(** The timer queue is kept in firing order: a new timeout goes behind
    every pending one that is due no later. *)
Fixpoint schedule (due : nat) (t : task) (q : list (nat * task))
  : list (nat * task) :=
  match q with
  | [] => [(due, t)]
  | (d, t') :: q' =>
      if (d <=? due)%nat then (d, t') :: schedule due t q'
      else (due, t) :: q
  end.

(** [setTimeout(t, delay)] *)
Definition setTimeout (t : task) (delay : nat) (s : state) : state :=
  set_timers (schedule (now s + delay) t (timers s)) s.

(** [hide()] *)
Definition hide (s : state) : state :=
  setTimeout RemoveLoader 500
    (set_doc (classList_add "hidden" (loader s) (doc s)) s).

(** [init()] *)
Definition init (rs : readyState) (s : state) : state :=
  match rs with
  | Complete => hide s
  | _ => setTimeout CeilingCheck 3000 (set_load_listener true s)
  end.

(** [new PageLoader()]: [found] is the result of
    [document.querySelector('.page-loader')]. *)
Definition newPageLoader (found : option elem) (rs : readyState)
    (d : gmap nat (gset string)) (t0 : nat) : option state :=
  match found with
  | Some l => Some (init rs (mkState l d true t0 [] false))
  | None => None
  end.

(** The window's [load] event. *)
Definition on_load (s : state) : state :=
  if load_listener s then setTimeout HideAfterLoad 500 s else s.

Definition run_task (t : task) (s : state) : state :=
  match t with
  | HideAfterLoad => hide s
  | CeilingCheck =>
      if classList_contains "hidden" (loader s) (doc s) then s else hide s
  | RemoveLoader => set_attached false s
  end.

(** One turn of the event loop: the earliest timeout fires. *)
Definition step (s : state) : option state :=
  match timers s with
  | [] => None
  | (due, t) :: q =>
      Some (run_task t (set_now (Nat.max (now s) due) (set_timers q s)))
  end.

Fixpoint drain (fuel : nat) (s : state) : state :=
  match fuel with
  | O => s
  | S f => match step s with
           | None => s
           | Some s' => drain f s'
           end
  end.

(** A hiding task can schedule one removal; a removal schedules nothing. *)
Definition task_weight (t : task) : nat :=
  match t with RemoveLoader => 1 | _ => 2 end.

Definition weight (q : list (nat * task)) : nat :=
  fold_right (fun p acc => task_weight (snd p) + acc) 0 q.

(** Let every pending timeout fire. *)
Definition settle (s : state) : state := drain (weight (timers s)) s.

(** [hide()] called [n] times in a row. *)
Definition hide_times (n : nat) (s : state) : state := Nat.iter n hide s.

(** What can happen to the loader next: some caller invokes [hide()], or
    the earliest pending timeout fires. *)
Inductive action := CallHide | Tick.

Definition act (a : action) (s : state) : state :=
  match a with
  | CallHide => hide s
  | Tick => default s (step s)
  end.

Definition run_actions (acts : list action) (s : state) : state :=
  fold_left (fun s a => act a s) acts s.

(** The loader carries the class [hidden]. *)
Definition hidden_set (s : state) : Prop :=
  ∃ c, doc s !! loader s = Some c ∧ "hidden" ∈ c.

(** The loader is detached, or its removal is pending. *)
Definition removal_due (s : state) : Prop :=
  attached s = false ∨ ∃ due, In (due, RemoveLoader) (timers s).

(** A task that calls [hide()], unless the class is already there, is
    pending. *)
Definition hide_due (s : state) : Prop :=
  ∃ due t, In (due, t) (timers s) ∧ t ≠ RemoveLoader.

(** Relative to the class lists [d0] of the state [hide()] was first
    called in: the loader [l] has got the class and its removal is due. *)
Definition hidden_since (d0 : gmap nat (gset string)) (l : elem) (s : state)
  : Prop :=
  doc s = classList_add "hidden" l d0 ∧ removal_due s ∧ loader s = l.

Definition hidden_or_not_yet (d0 : gmap nat (gset string)) (l : elem)
    (s : state) : Prop :=
  loader s = l ∧ (doc s = d0 ∨ hidden_since d0 l s).

End PageLoader.

(** ** Strings and numbers as the scripts read and print them *)

Module JsString.

(** White space as [String.prototype.trim], [parseInt] and the conversion
    of a string to a number skip it: TAB, LF, VT, FF, CR and SPACE (the
    code points outside ASCII are not representable here). *)
Definition is_space (a : ascii) : bool :=
  let n := nat_of_ascii a in
  (n =? 9) || (n =? 10) || (n =? 11) || (n =? 12) || (n =? 13) || (n =? 32).

Fixpoint trim_start (s : string) : string :=
  match s with
  | EmptyString => EmptyString
  | String a s' => if is_space a then trim_start s' else s
  end.

Fixpoint trim_end (s : string) : string :=
  match s with
  | EmptyString => EmptyString
  | String a s' =>
      match trim_end s' with
      | EmptyString => if is_space a then EmptyString else String a EmptyString
      | r => String a r
      end
  end.

(** [s.trim()] *)
Definition trim (s : string) : string := trim_end (trim_start s).

(** Truthiness of a string: only the empty string is falsy. *)
Definition truthy (s : string) : bool :=
  match s with EmptyString => false | _ => true end.

(** Decimal rendering of a non-negative integer, as a template literal
    prints it. *)
Definition nat_to_string (n : nat) : string :=
  NilEmpty.string_of_uint (Nat.to_uint n).

Definition digit_val (a : ascii) : option Z :=
  let n := nat_of_ascii a in
  if (48 <=? n) && (n <=? 57) then Some (Z.of_nat (n - 48)) else None.

Definition hex_val (a : ascii) : option Z :=
  let n := nat_of_ascii a in
  if (48 <=? n) && (n <=? 57) then Some (Z.of_nat (n - 48))
  else if (97 <=? n) && (n <=? 102) then Some (Z.of_nat (n - 87))
  else if (65 <=? n) && (n <=? 70) then Some (Z.of_nat (n - 55))
  else None.

Definition octal_val (a : ascii) : option Z :=
  let n := nat_of_ascii a in
  if (48 <=? n) && (n <=? 55) then Some (Z.of_nat (n - 48)) else None.

Definition binary_val (a : ascii) : option Z :=
  let n := nat_of_ascii a in
  if (48 <=? n) && (n <=? 49) then Some (Z.of_nat (n - 48)) else None.

(** The longest prefix of digits of the radix, as a list of digit values,
    and what follows it. *)
Fixpoint span_digits (val : ascii → option Z) (s : string)
  : list Z * string :=
  match s with
  | EmptyString => ([], EmptyString)
  | String a s' =>
      match val a with
      | Some d => let '(ds, rest) := span_digits val s' in (d :: ds, rest)
      | None => ([], s)
      end
  end.

Definition digits_value (radix : Z) (ds : list Z) : Z :=
  fold_left (fun acc d => radix * acc + d)%Z ds 0%Z.

(** A leading sign: whether it is a minus, and the rest. *)
Definition strip_sign (s : string) : bool * string :=
  match s with
  | String "-" s' => (true, s')
  | String "+" s' => (false, s')
  | _ => (false, s)
  end.

(** [parseInt(s)] with no radix argument; [None] stands for [NaN].  A
    missing attribute reaches [parseInt] as [undefined], which it reads as
    the string [undefined]: no digits, hence [NaN]. *)
Definition parseInt (arg : option string) : option Z :=
  match arg with
  | None => None
  | Some s =>
      let '(neg, s1) := strip_sign (trim_start s) in
      let '(val, radix, s2) :=
        match s1 with
        | String "0" (String "x" s') => (hex_val, 16%Z, s')
        | String "0" (String "X" s') => (hex_val, 16%Z, s')
        | _ => (digit_val, 10%Z, s1)
        end in
      match fst (span_digits val s2) with
      | [] => None
      | ds => Some (if neg then - digits_value radix ds
                    else digits_value radix ds)%Z
      end
  end.

(** A number as a multiplication can meet it: finite (exact, no rounding
    to a double), infinite, or not a number. *)
Inductive num :=
| NaN
| Inf (negative : bool)
| Fin (q : Q).

(** [mant * 10^e] *)
Definition scale10 (mant e : Z) : Q :=
  if (0 <=? e)%Z then inject_Z (mant * 10 ^ e)
  else Qmake mant (Z.to_pos (10 ^ (- e))).

(** An optional exponent part [e±ddd] that must reach the end of the
    string; [None] when the string is not one. *)
Definition exponent_part (s : string) : option Z :=
  match s with
  | EmptyString => Some 0%Z
  | String c s' =>
      if (Ascii.eqb c "e" || Ascii.eqb c "E")%bool then
        let '(neg, s1) := strip_sign s' in
        match span_digits digit_val s1 with
        | (d :: ds, EmptyString) =>
            let e := digits_value 10 (d :: ds) in
            Some (if neg then - e else e)%Z
        | _ => None
        end
      else None
  end.

(** An unsigned decimal literal: digits, an optional fraction, an
    optional exponent, with a digit on at least one side of the point. *)
Definition unsigned_decimal (s : string) : option Q :=
  let '(ip, s1) := span_digits digit_val s in
  let '(fp, s2) :=
    match s1 with
    | String "." s' => span_digits digit_val s'
    | _ => ([], s1)
    end in
  match ip ++ fp with
  | [] => None
  | ds =>
      match exponent_part s2 with
      | Some e => Some (scale10 (digits_value 10 ds) (e - Z.of_nat (length fp)))
      | None => None
      end
  end.

Definition radix_literal (val : ascii → option Z) (radix : Z) (s : string)
  : num :=
  match span_digits val s with
  | (d :: ds, EmptyString) => Fin (inject_Z (digits_value radix (d :: ds)))
  | _ => NaN
  end.

(** The conversion of a string to a number that [*] applies to a string
    operand. *)
Definition StringToNumber (s : string) : num :=
  match trim s with
  | EmptyString => Fin 0
  | String "0" (String "x" s') | String "0" (String "X" s') =>
      radix_literal hex_val 16 s'
  | String "0" (String "o" s') | String "0" (String "O" s') =>
      radix_literal octal_val 8 s'
  | String "0" (String "b" s') | String "0" (String "B" s') =>
      radix_literal binary_val 2 s'
  | t =>
      let '(neg, u) := strip_sign t in
      if String.eqb u "Infinity" then Inf neg
      else match unsigned_decimal u with
           | Some q => Fin (if neg then - q else q)
           | None => NaN
           end
  end.

(** [a * b] on numbers *)
Definition num_mul (a b : num) : num :=
  match a, b with
  | NaN, _ | _, NaN => NaN
  | Fin x, Fin y => Fin (x * y)
  | Inf n, Inf m => Inf (xorb n m)
  | Inf n, Fin y | Fin y, Inf n =>
      match (y ?= 0)%Q with
      | Eq => NaN
      | Lt => Inf (negb n)
      | Gt => Inf n
      end
  end.

(** [- a] on numbers *)
Definition num_neg (a : num) : num :=
  match a with
  | NaN => NaN
  | Inf n => Inf (negb n)
  | Fin x => Fin (- x)
  end.

(** [n.toLocaleString()] of an integer in the [en-US] locale: groups of
    three digits separated by commas. *)
Fixpoint group3 (fuel : nat) (rev_digits : list ascii) : list ascii :=
  match fuel, rev_digits with
  | S f, a :: b :: c :: ((_ :: _) as rest) =>
      a :: b :: c :: ","%char :: group3 f rest
  | _, l => l
  end.

Definition en_US (z : Z) : string :=
  let digits := list_ascii_of_string (nat_to_string (Z.abs_nat z)) in
  let grouped := rev (group3 (length digits) (rev digits)) in
  ((if (z <? 0)%Z then "-" else EmptyString)
   +:+ string_of_list_ascii grouped)%string.

End JsString.

(** ** Counter animation ([class CounterAnimation], main script) *)

Module Counter.
Import JsString.

(** What the counter reads and writes of its element. *)
Record element := mkElement {
  dataset_target : option string;   (* [data-target] *)
  dataset_suffix : option string;   (* [data-suffix] *)
  textContent : string
}.

Definition set_textContent (t : string) (el : element) : element :=
  mkElement (dataset_target el) (dataset_suffix el) t.

Record counter := mkCounter {
  element_of : element;     (* [this.element] *)
  target : Z;               (* [this.target] *)
  duration : Q;             (* [this.duration] *)
  started : bool;           (* [this.started] *)
  observing : bool;         (* the observer still watches the element *)
  startTime : Q;            (* [startTime] of the running animation *)
  frame_pending : bool;     (* [update] is waiting for the next frame *)
  frames_requested : nat    (* calls of [requestAnimationFrame] so far *)
}.

(** [parseInt(element.dataset.target) || 0] *)
Definition read_target (el : element) : Z :=
  match parseInt (dataset_target el) with
  | Some n => if (n =? 0)%Z then 0%Z else n
  | None => 0%Z
  end.

(** [options.duration || 2000], for a caller that passes a number or
    nothing. *)
Definition read_duration (opt_duration : option Q) : Q :=
  match opt_duration with
  | Some d => if Qeq_bool d 0 then 2000%Q else d
  | None => 2000%Q
  end.

(** [new CounterAnimation(element, options)]; [createObserver] starts the
    observation. *)
Definition newCounterAnimation (el : element) (opt_duration : option Q)
  : counter :=
  mkCounter el (read_target el) (read_duration opt_duration)
    false true 0%Q false 0.

(** [requestAnimationFrame(update)] *)
Definition requestAnimationFrame (c : counter) : counter :=
  mkCounter (element_of c) (target c) (duration c) (started c) (observing c)
    (startTime c) true (S (frames_requested c)).

(** [animate()], called when [performance.now()] is [now]. *)
Definition animate (now : Q) (c : counter) : counter :=
  requestAnimationFrame
    (mkCounter (element_of c) (target c) (duration c) (started c)
       (observing c) now (frame_pending c) (frames_requested c)).

(** The observer's callback on one entry. *)
Definition on_counter_entry (now : Q) (isIntersecting : bool) (c : counter)
  : counter :=
  if isIntersecting && negb (started c) then
    let c1 := mkCounter (element_of c) (target c) (duration c) true
                (observing c) (startTime c) (frame_pending c)
                (frames_requested c) in
    let c2 := animate now c1 in
    mkCounter (element_of c2) (target c2) (duration c2) (started c2)
      false (startTime c2) (frame_pending c2) (frames_requested c2)
  else c.

(** The observer's callback: [entries.forEach]. *)
Definition on_intersect (now : Q) (entries : list bool) (c : counter)
  : counter :=
  fold_left (fun c e => on_counter_entry now e c) entries c.

Definition progress_at (c : counter) (currentTime : Q) : Q :=
  Qmin ((currentTime - startTime c) / duration c) 1.

(** [1 - Math.pow(1 - progress, 3)] *)
Definition easeOut (progress : Q) : Q := (1 - (1 - progress) ^ 3)%Q.

Section WithLocale.

(** [Number.prototype.toLocaleString] on an integer, as the platform's
    locale renders it. *)
Variable toLocaleString : Z → string.

(** The frame callback [update(currentTime)]. *)
Definition update (currentTime : Q) (c : counter) : counter :=
  let start := 0%Q in
  let end_ := inject_Z (target c) in
  let elapsed := (currentTime - startTime c)%Q in
  let progress := Qmin (elapsed / duration c) 1 in
  let easeOut := (1 - (1 - progress) ^ 3)%Q in
  let current := Qfloor (start + (end_ - start) * easeOut) in
  let el1 := set_textContent (toLocaleString current) (element_of c) in
  let c1 := mkCounter el1 (target c) (duration c) (started c) (observing c)
              (startTime c) false (frames_requested c) in
  if negb (Qle_bool 1 progress) then
    requestAnimationFrame c1
  else
    let el2 := set_textContent (toLocaleString (target c)) el1 in
    let suffix := default EmptyString (dataset_suffix el2) in
    let el3 := if truthy suffix
               then set_textContent (textContent el2 +:+ suffix) el2
               else el2 in
    mkCounter el3 (target c) (duration c) (started c) (observing c)
      (startTime c) false (frames_requested c).

(** The browser runs the pending callback at each frame time in turn, as
    long as one is pending; the states after each callback. *)
Fixpoint run_frames (frames : list Q) (c : counter) : list counter :=
  match frames with
  | [] => []
  | t :: rest =>
      if frame_pending c then
        let c' := update t c in c' :: run_frames rest c'
      else []
  end.

End WithLocale.

(** The number a frame at [currentTime] leaves on display: the eased
    value while the animation runs, the target once it is over. *)
Definition displayed_value (c : counter) (currentTime : Q) : Z :=
  let progress := progress_at c currentTime in
  if negb (Qle_bool 1 progress)
  then Qfloor (0 + (inject_Z (target c) - 0) * easeOut progress)
  else target c.

(** The numbers on display over the frames the animation consumes. *)
Fixpoint displayed_values (frames : list Q) (c : counter) : list Z :=
  match frames with
  | [] => []
  | t :: rest =>
      displayed_value c t ::
      (if negb (Qle_bool 1 (progress_at c t)) then displayed_values rest c
       else [])
  end.

(** The contract's formula, from the specification: at elapsed time [t]
    the text is the rendering of [floor(target * (1 - (1-progress)^3))]
    with [progress = min(t/duration, 1)], and once progress reaches 1 it is
    the rendering of the target followed by the suffix. *)
Definition spec_text (toLocaleString : Z → string) (target : Z)
    (duration : Q) (suffix : string) (t : Q) : string :=
  let progress := Qmin (t / duration) 1 in
  if Qle_bool 1 progress then toLocaleString target +:+ suffix
  else toLocaleString
         (Qfloor (inject_Z target * (1 - (1 - progress) ^ 3))%Q).

(** The text the contract's formula gives for counter [c] at frame time
    [t]. *)
Definition shown_of (toLocaleString : Z → string) (c : counter) (t : Q)
  : string :=
  spec_text toLocaleString (target c) (duration c)
    (default EmptyString (dataset_suffix (element_of c))) (t - startTime c).


End Counter.

(** ** FAQ accordion ([initFAQ], main script) *)

Module Faq.
Import Dom.

(** The click listener that [initFAQ] puts on the question of [item];
    [faqItems] is [document.querySelectorAll('.faq-item')]. *)
Definition on_click (faqItems : list elem) (item : elem)
    (d : gmap nat (gset string)) : gmap nat (gset string) :=
  let closed :=
    fold_left
      (fun d otherItem =>
         if decide (otherItem ≠ item)
         then classList_remove "open" otherItem d
         else d)
      faqItems d in
  classList_toggle "open" item closed.

(** A click on the question of [item] reaches a listener only if [item] is
    one of the items and has a [.faq-question]. *)
Definition click (faqItems : list elem) (has_question : elem → bool)
    (item : elem) (d : gmap nat (gset string)) : gmap nat (gset string) :=
  if bool_decide (item ∈ faqItems) && has_question item
  then on_click faqItems item d
  else d.

(** A run of clicks, in order. *)
Definition clicks (faqItems : list elem) (has_question : elem → bool)
    (items : list elem) (d : gmap nat (gset string))
  : gmap nat (gset string) :=
  fold_left (fun d item => click faqItems has_question item d) items d.

(** The items that are open, in document order. *)
Definition open_items (faqItems : list elem) (d : gmap nat (gset string))
  : list elem :=
  filter (fun e => "open" ∈ classList d e) faqItems.

End Faq.

(** ** Testimonial carousel ([initTestimonialCarousel], main script) *)

Module Carousel.
Import JsString.

(** [currentSlide] is a number; [None] stands for [NaN], which the
    remainder by a slide count of 0 produces. *)
Record carousel := mkCarousel {
  slides : nat;                 (* [slides.length] *)
  currentSlide : option nat;
  transform : string;           (* [track.style.transform] *)
  dots : list bool              (* each dot: has the class [active] *)
}.

Definition index_to_string (index : option nat) : string :=
  match index with
  | Some i => nat_to_string (i * 100)
  | None => "NaN"
  end.

Definition index_eqb (i : nat) (index : option nat) : bool :=
  match index with
  | Some k => i =? k
  | None => false
  end.

(** [goToSlide(index)] *)
Definition goToSlide (index : option nat) (s : carousel) : carousel :=
  mkCarousel (slides s) index
    ("translateX(-" +:+ index_to_string index +:+ "%)")
    (imap (fun i _ => index_eqb i index) (dots s)).

(** [(currentSlide + 1) % slides.length] *)
Definition next_index (current : option nat) (length : nat) : option nat :=
  match current with
  | Some i => if length =? 0 then None else Some ((i + 1) mod length)
  | None => None
  end.

(** The interval callback. *)
Definition auto_advance (s : carousel) : carousel :=
  let s1 := mkCarousel (slides s) (next_index (currentSlide s) (slides s))
              (transform s) (dots s) in
  goToSlide (currentSlide s1) s1.

(** The state [initTestimonialCarousel] sets up for [n] slides: one dot
    per slide, the first one active; the track's transform is still what
    the markup gave it. *)
Definition initTestimonialCarousel (n : nat) (markup_transform : string)
  : carousel :=
  mkCarousel n (Some 0) markup_transform
    (imap (fun index _ => index =? 0) (replicate n false)).

(** [k] ticks of the interval timer. *)
Definition advance_times (k : nat) (s : carousel) : carousel :=
  Nat.iter k auto_advance s.

End Carousel.

(** ** Form validation ([initForms], main script) *)

Module Forms.
Import JsString.

(** A control of the form. *)
Record control := mkControl {
  name : option string;       (* [name] attribute *)
  value : string;             (* current value *)
  defaultValue : string;      (* the value of the markup, which [reset()] restores *)
  required : bool;            (* carries [required] *)
  classes : gset string       (* [classList] *)
}.

Record form := mkForm {
  controls : list control;
  success_display : option string
    (* [style.display] of the form's [.form-success] element, if any *)
}.

(** What a submit event leaves behind. *)
Record result := mkResult {
  form_after : form;
  defaultPrevented : bool;                 (* [e.preventDefault()] was called *)
  console : list (gmap string string)      (* objects passed to [console.log] *)
}.

Definition set_classes (cl : gset string) (c : control) : control :=
  mkControl (name c) (value c) (defaultValue c) (required c) cl.

(** The body of [inputs.forEach] on one control; the loop runs over the
    required ones only ([querySelectorAll('[required]')]) and threads
    [isValid]. *)
Definition check_input (acc : bool * list control) (input : control)
  : bool * list control :=
  let '(isValid, done) := acc in
  if required input then
    if negb (truthy (trim (value input)))
    then (false, done ++ [set_classes ({[ "error" ]} ∪ classes input) input])
    else (isValid, done ++ [set_classes (classes input ∖ {[ "error" ]}) input])
  else (isValid, done ++ [input]).

(** [new FormData(this)]: the named controls with their values. *)
Definition FormData (f : form) : list (string * string) :=
  omap (fun c => match name c with
                 | Some n => Some (n, value c)
                 | None => None
                 end) (controls f).

(** [Object.fromEntries]: a later entry overwrites an earlier one of the
    same name. *)
Definition fromEntries (entries : list (string * string)) : gmap string string :=
  fold_left (fun m kv => <[kv.1 := kv.2]> m) entries ∅.

(** [form.reset()]: every control goes back to its default value. *)
Definition reset (f : form) : form :=
  mkForm
    (map (fun c => mkControl (name c) (defaultValue c) (defaultValue c)
                     (required c) (classes c)) (controls f))
    (success_display f).

(** The submit listener. *)
Definition on_submit (f : form) : result :=
  let '(isValid, checked) := fold_left check_input (controls f) (true, []) in
  let f1 := mkForm checked (success_display f) in
  if isValid then
    let logged := fromEntries (FormData f1) in
    let f2 := mkForm (controls f1)
                (match success_display f1 with
                 | Some _ => Some "block"
                 | None => None
                 end) in
    mkResult (reset f2) true [logged]
  else mkResult f1 true [].

(** A required control whose trimmed value is empty. *)
Definition missing (c : control) : bool :=
  required c && negb (truthy (trim (value c))).

(** What the validation loop does to one control. *)
Definition checked (c : control) : control :=
  if required c then
    if negb (truthy (trim (value c)))
    then set_classes ({[ "error" ]} ∪ classes c) c
    else set_classes (classes c ∖ {[ "error" ]}) c
  else c.


End Forms.

(** ** The scroll-reveal script: [ScrollReveals], [ScrollProgress],
    [ParallaxEffect] and its [DOMContentLoaded] handler *)

Module RevealScript.
Import Dom JsString.

(** *** [class ScrollReveals] *)

(** The options (threshold, root margin) only tell the browser when to
    report an element as intersecting; the script itself reads
    [entry.isIntersecting]. *)
Record ScrollReveals := mkScrollReveals {
  elements : list elem;           (* [this.elements] *)
  observer : option (gset nat)    (* [this.observer]: the targets it watches *)
}.

(** One entry of an intersection callback: the target and
    [isIntersecting]. *)
Definition entry : Type := elem * bool.

(** [createObserver()] *)
Definition createObserver (sr : ScrollReveals) : ScrollReveals :=
  mkScrollReveals (elements sr) (Some ∅).

(** [this.observer.observe(el)] and [this.observer.unobserve(el)] *)
Definition observer_observe (el : elem) (sr : ScrollReveals) : ScrollReveals :=
  mkScrollReveals (elements sr) (union {[el]} <$> observer sr).
Definition observer_unobserve (el : elem) (sr : ScrollReveals) : ScrollReveals :=
  mkScrollReveals (elements sr) ((fun o => o ∖ {[el]}) <$> observer sr).

(** [observeElements()] *)
Definition observeElements (sr : ScrollReveals) : ScrollReveals :=
  fold_left (fun sr el => observer_observe el sr) (elements sr) sr.

(** [revealElement(el)] *)
Definition revealElement (el : elem) (d : gmap nat (gset string))
  : gmap nat (gset string) :=
  classList_add "revealed" el d.

(** [revealAll()] *)
Definition revealAll (sr : ScrollReveals) (d : gmap nat (gset string))
  : gmap nat (gset string) :=
  fold_left (fun d el => classList_add "revealed" el d) (elements sr) d.

(** [init()]; [hasIO] is ['IntersectionObserver' in window]. *)
Definition init (hasIO : bool) (sr : ScrollReveals)
    (d : gmap nat (gset string)) : ScrollReveals * gmap nat (gset string) :=
  if hasIO then (observeElements (createObserver sr), d)
  else (sr, revealAll sr d).

(** [new ScrollReveals()]; [marked] is
    [document.querySelectorAll('[data-reveal]')]. *)
Definition newScrollReveals (hasIO : bool) (marked : list elem)
    (d : gmap nat (gset string)) : ScrollReveals * gmap nat (gset string) :=
  init hasIO (mkScrollReveals marked None) d.

(** The observer's callback: [entries.forEach]. *)
Definition on_entry (st : ScrollReveals * gmap nat (gset string)) (e : entry)
  : ScrollReveals * gmap nat (gset string) :=
  if e.2 then (observer_unobserve e.1 st.1, revealElement e.1 st.2)
  else st.

Definition callback (entries : list entry)
    (st : ScrollReveals * gmap nat (gset string))
  : ScrollReveals * gmap nat (gset string) :=
  fold_left on_entry entries st.

(** [observe(element)] *)
Definition observe (element : elem) (sr : ScrollReveals) : ScrollReveals :=
  match observer sr with
  | Some _ => observer_observe element sr
  | None => sr
  end.

(** Whether the observer watches [el]. *)
Definition observed (el : elem) (sr : ScrollReveals) : Prop :=
  ∃ o, observer sr = Some o ∧ el ∈ o.

(** *** [class ScrollProgress] *)

Record window := mkWindow {
  scrollY : Q;          (* [window.scrollY] *)
  innerHeight : Q;      (* [window.innerHeight] *)
  scrollHeight : Q      (* [document.documentElement.scrollHeight] *)
}.

(** The progress bar; its [style.width] is the number followed by [%]. *)
Record ScrollProgress := mkScrollProgress {
  width_percent : Q
}.

(** [updateProgress()] *)
Definition updateProgress (w : window) (sp : ScrollProgress) : ScrollProgress :=
  let scrollTop := scrollY w in
  let docHeight := (scrollHeight w - innerHeight w)%Q in
  let progress :=
    if negb (Qle_bool docHeight 0) (* [docHeight > 0] *)
    then (scrollTop / docHeight * 100)%Q else 0%Q in
  mkScrollProgress progress.

(** [new ScrollProgress()]: the bar is created, then [updateProgress()]
    runs once. *)
Definition newScrollProgress (w : window) : ScrollProgress :=
  updateProgress w (mkScrollProgress 0).

(** *** [class ParallaxEffect] *)

(** A layer: its [data-speed] attribute and the vertical offset of the
    [translate3d(0, ...px, 0)] last assigned to [style.transform]. *)
Record layer := mkLayer {
  dataset_speed : option string;
  translateY : option num
}.

(** The value of [layer.dataset.speed || 0.5]: the attribute's string when
    it is truthy, the number 0.5 otherwise. *)
Inductive speed_value :=
| SpeedString (s : string)
| SpeedNumber (q : Q).

Definition read_speed (l : layer) : speed_value :=
  match dataset_speed l with
  | Some s => if truthy s then SpeedString s else SpeedNumber 0.5
  | None => SpeedNumber 0.5
  end.

(** The numeric conversion the multiplication applies to its operand. *)
Definition ToNumber (v : speed_value) : num :=
  match v with
  | SpeedString s => StringToNumber s
  | SpeedNumber q => Fin q
  end.

(** The body of [this.layers.forEach] in [updateLayers()]. *)
Definition updateLayer (scrollY : Q) (l : layer) : layer :=
  let speed := read_speed l in
  let yPos := num_neg (num_mul (Fin scrollY) (ToNumber speed)) in
  mkLayer (dataset_speed l) (Some yPos).

Record ParallaxEffect := mkParallaxEffect {
  layers : list layer;
  ticking : bool;
  listening : bool        (* [init()] ran: the scroll listener is set *)
}.

(** [new ParallaxEffect()] *)
Definition newParallaxEffect (ls : list layer) : ParallaxEffect :=
  mkParallaxEffect ls false (0 <? length ls).

(** [updateLayers()] *)
Definition updateLayers (w : window) (p : ParallaxEffect) : ParallaxEffect :=
  mkParallaxEffect (map (updateLayer (scrollY w)) (layers p))
    (ticking p) (listening p).

(** *** The page under this script *)

Record markup := mkMarkup {
  data_reveal : list elem;        (* [[data-reveal]] *)
  text_reveal : list elem;        (* [.text-reveal] *)
  parallax_layers : list layer    (* [.parallax-layer] *)
}.

Record platform := mkPlatform {
  hasIntersectionObserver : bool;
  prefersReducedMotion : bool
    (* [matchMedia('(prefers-reduced-motion: reduce)').matches] *)
}.

Record page := mkPage {
  doc : gmap nat (gset string);
  win : window;
  reveals : option ScrollReveals;
  text_wrapped : list elem;       (* elements [TextReveal] has wrapped *)
  progress : option ScrollProgress;
  parallax : option ParallaxEffect;
  frames_requested : nat          (* calls of [requestAnimationFrame] *)
}.

(** The [DOMContentLoaded] handler. *)
Definition on_ready (pl : platform) (m : markup) (w : window)
    (d : gmap nat (gset string)) : page :=
  if negb (prefersReducedMotion pl) then
    let '(sr, d1) := newScrollReveals (hasIntersectionObserver pl)
                       (data_reveal m) d in
    mkPage d1 w (Some sr) (text_reveal m) (Some (newScrollProgress w))
      (Some (newParallaxEffect (parallax_layers m))) 0
  else
    let d1 := fold_left (fun d el => classList_add "revealed" el d)
                (data_reveal m) d in
    let d2 := fold_left (fun d el => classList_add "revealed" el d)
                (text_reveal m) d1 in
    mkPage d2 w None [] None None 0.

Inductive event :=
| Scroll (y : Q)                     (* the window scrolls to [y] *)
| Resize (h : Q)                     (* the viewport height becomes [h] *)
| Intersect (entries : list entry)   (* the reveal observer reports *)
| Frame.                             (* an animation frame *)

(** [onScroll()] of the parallax effect. *)
Definition onScroll (pg : page) : page :=
  match parallax pg with
  | Some p =>
      if listening p && negb (ticking p) then
        mkPage (doc pg) (win pg) (reveals pg) (text_wrapped pg) (progress pg)
          (Some (mkParallaxEffect (layers p) true (listening p)))
          (S (frames_requested pg))
      else pg
  | None => pg
  end.

Definition refresh_progress (pg : page) : page :=
  mkPage (doc pg) (win pg) (reveals pg) (text_wrapped pg)
    (updateProgress (win pg) <$> progress pg) (parallax pg)
    (frames_requested pg).

Definition set_win (w : window) (pg : page) : page :=
  mkPage (doc pg) w (reveals pg) (text_wrapped pg) (progress pg)
    (parallax pg) (frames_requested pg).

Definition handle (ev : event) (pg : page) : page :=
  match ev with
  | Scroll y =>
      let pg1 := set_win (mkWindow y (innerHeight (win pg))
                            (scrollHeight (win pg))) pg in
      onScroll (refresh_progress pg1)
  | Resize h =>
      refresh_progress
        (set_win (mkWindow (scrollY (win pg)) h (scrollHeight (win pg))) pg)
  | Intersect entries =>
      match reveals pg with
      | Some sr =>
          match observer sr with
          | Some _ =>
              let '(sr', d') := callback entries (sr, doc pg) in
              mkPage d' (win pg) (Some sr') (text_wrapped pg) (progress pg)
                (parallax pg) (frames_requested pg)
          | None => pg
          end
      | None => pg
      end
  | Frame =>
      match parallax pg with
      | Some p =>
          if ticking p then
            let p' := updateLayers (win pg) p in
            mkPage (doc pg) (win pg) (reveals pg) (text_wrapped pg)
              (progress pg)
              (Some (mkParallaxEffect (layers p') false (listening p')))
              (frames_requested pg)
          else pg
      | None => pg
      end
  end.

Definition run (evs : list event) (pg : page) : page :=
  fold_left (fun pg ev => handle ev pg) evs pg.

(** The targets an intersection callback acts on. *)
Definition intersecting (entries : list entry) : list elem :=
  fst <$> filter (fun e => e.2 = true) entries.

End RevealScript.

(** ** The main script's [ready] initializer and the site as a whole *)

Module App.

(** What the initializer finds in the markup. *)
Record app_markup := mkAppMarkup {
  page_loader : option Dom.elem;              (* [.page-loader] *)
  data_counter : list Counter.element;        (* [[data-counter]] *)
  faq_items : list Dom.elem;                  (* [.faq-item] *)
  testimonial_slides : option nat             (* slides of the track, if any *)
}.

Record app := mkApp {
  loader : option PageLoader.state;
  counters : list Counter.counter;
  testimonials : option Carousel.carousel
}.

(** The callback passed to [ready]: loader, counters, smooth scroll,
    forms, FAQ, carousel; the smooth-scroll, form and FAQ listeners keep no
    state of their own. No step consults the reduced-motion preference. *)
Definition ready_init (pl : RevealScript.platform) (m : app_markup)
    (rs : PageLoader.readyState) (d : gmap nat (gset string)) (now : nat)
  : app :=
  mkApp (PageLoader.newPageLoader (page_loader m) rs d now)
    (map (fun el => Counter.newCounterAnimation el None) (data_counter m))
    ((fun n => Carousel.initTestimonialCarousel n EmptyString)
       <$> testimonial_slides m).

(** The observer of the [i]-th counter reports, at time [now]. *)
Definition counter_intersects (i : nat) (now : Q) (entries : list bool)
    (a : app) : app :=
  mkApp (loader a)
    (alter (Counter.on_intersect now entries) i (counters a))
    (testimonials a).

(** Animation frames requested by the counters. *)
Definition frames_requested (a : app) : nat :=
  foldr (fun c acc => Counter.frames_requested c + acc) 0 (counters a).

End App.

(** ** The carousel over time: timer ticks and clicks on dots *)

Module CarouselRun.
Import Carousel.

(** What moves the carousel: the interval timer fires, or the visitor
    clicks the dot created for slide [index]. *)
Inductive action :=
| Tick
| DotClick (index : nat).

Definition act (a : action) (s : carousel) : carousel :=
  match a with
  | Tick => auto_advance s
  | DotClick index => goToSlide (Some index) s
  end.

Definition run (acts : list action) (s : carousel) : carousel :=
  fold_left (fun s a => act a s) acts s.

(** A dot exists for every slide and for nothing else. *)
Definition possible (n : nat) (a : action) : Prop :=
  match a with
  | Tick => True
  | DotClick index => index < n
  end.

(** [n] dots of which only the [i]-th is active. *)
Definition only_active (n i : nat) : list bool :=
  imap (fun j _ => j =? i) (replicate n false).

(** The state the carousel is kept in: a slide is current, and exactly
    its dot is active. *)
Definition consistent (n : nat) (s : carousel) : Prop :=
  slides s = n ∧
  ∃ i, i < n ∧ currentSlide s = Some i ∧ dots s = only_active n i.

End CarouselRun.

(** ** The reveal script over a run of events: bookkeeping *)

Module RevealRun.
Import Dom RevealScript.

(** The animation frames among the events. *)
Definition is_frame (ev : event) : bool :=
  match ev with Frame => true | _ => false end.

Definition count_frames (evs : list event) : nat :=
  foldr (fun ev n => if is_frame ev then S n else n) 0 evs.

(** Frame requests the parallax effect may still make without a frame in
    between: none while one is in flight. *)
Definition headroom (pg : page) : nat :=
  match parallax pg with
  | Some p => if ticking p then 0 else 1
  | None => 1
  end.

(** The scroll height and the viewport leave something to scroll. *)
Definition scrollable (w : window) : Prop :=
  (0 < scrollHeight w - innerHeight w)%Q.

(** The window scrolled to [y]. *)
Definition scrolled_to (y : Q) (w : window) : window :=
  mkWindow y (innerHeight w) (scrollHeight w).

End RevealRun.

(** ** A form over time: typing and submitting *)

Module FormsRun.
Import Forms.

(** The visitor types [v] into the [i]-th control, or submits the form. *)
Inductive action :=
| Type_ (i : nat) (v : string)
| Submit.

Definition set_value (v : string) (c : control) : control :=
  mkControl (name c) v (defaultValue c) (required c) (classes c).

Definition act (a : action) (f : form) : form :=
  match a with
  | Type_ i v => mkForm (alter (set_value v) i (controls f)) (success_display f)
  | Submit => form_after (on_submit f)
  end.

Definition run (acts : list action) (f : form) : form :=
  fold_left (fun f a => act a f) acts f.


End FormsRun.

(** ** The page loader against the clock *)

Module PageLoaderClock.
Import Dom PageLoader.

(** Fire, in order, the timeouts that are due by time [t]. *)
Fixpoint fire_due (fuel : nat) (t : nat) (s : state) : state :=
  match fuel with
  | O => s
  | S f =>
      match timers s with
      | (due, _) :: _ =>
          if due <=? t then
            match step s with
            | Some s' => fire_due f t s'
            | None => s
            end
          else s
      | [] => s
      end
  end.

(** Let the clock reach [t]. *)
Definition advance_to (t : nat) (s : state) : state :=
  set_now (Nat.max (now s) t) (fire_due (weight (timers s)) t s).

(** The loader as it is at time [t], built at time [t0] with the window's
    load event coming at [load_at], if it comes. *)
Definition at_time (l : elem) (d : gmap nat (gset string)) (rs : readyState)
    (t0 : nat) (load_at : option nat) (t : nat) : option state :=
  match newPageLoader (Some l) rs d t0 with
  | Some s0 =>
      Some match load_at with
           | Some tl =>
               if tl <=? t then advance_to t (on_load (advance_to tl s0))
               else advance_to t s0
           | None => advance_to t s0
           end
  | None => None
  end.

(** The load event does not precede the construction. *)
Definition load_after (t0 : nat) (load_at : option nat) : Prop :=
  match load_at with
  | Some tl => t0 ≤ tl
  | None => True
  end.

(** The time at which the loader starts to hide: at once if the page is
    complete already; otherwise half a second after the load event or
    three seconds after the construction, whichever comes first. *)
Definition hiding_time (rs : readyState) (t0 : nat) (load_at : option nat)
  : nat :=
  match rs, load_at with
  | Complete, _ => t0
  | _, Some tl => Nat.min (tl + 500) (t0 + 3000)
  | _, None => t0 + 3000
  end.

End PageLoaderClock.

(** ** The DOM-ready helper ([ready], main script) *)

Module Ready.





End Ready.

(** ** Character-by-character reveal ([class CharacterReveal], reveal script) *)

Module CharacterReveal.

(** What [chars.map] makes of one character: a space stays a space, any
    other character is wrapped in a span with a transition delay. *)
Inductive piece :=
| Space
| Span (delay : nat) (char : ascii).

(** The array [chars.map(...)] builds from [text.split('')] (one entry per
    character; strings here are sequences of 8-bit characters). *)
Definition pieces (text : string) : list piece :=
  imap (fun i char =>
          if Ascii.eqb char " " then Space
          else Span (i * 30) char (* 30ms between each character *))
       (list_ascii_of_string text).

Definition dquote : string := String (ascii_of_nat 34) EmptyString.

(** The markup of one piece, as the template literal writes it. *)
Definition render (p : piece) : string :=
  match p with
  | Space => " "
  | Span delay char =>
      "<span class=" +:+ dquote +:+ "char" +:+ dquote +:+ " style=" +:+ dquote
      +:+ "transition-delay: " +:+ JsString.nat_to_string delay +:+ "ms"
      +:+ dquote +:+ ">" +:+ String char EmptyString +:+ "</span>"
  end.

(** [init()] on one element: the string assigned to [el.innerHTML]. *)
Definition innerHTML (text : string) : string :=
  fold_right (fun p acc => render p +:+ acc) EmptyString (pieces text).

(** The character a piece stands for. *)
Definition char_of (p : piece) : ascii :=
  match p with
  | Space => " "%char
  | Span _ char => char
  end.

Definition is_span (p : piece) : bool :=
  match p with Span _ _ => true | Space => false end.

End CharacterReveal.
(** * Properties *)

(** ** Class lists *)

Module DomFacts.
Import Dom.

Lemma classList_add_eq c e d :
  classList (classList_add c e d) e = {[c]} ∪ classList d e.
Proof. unfold classList_add, classList at 1. by rewrite lookup_insert_eq. Qed.

Lemma classList_add_ne c e e' d :
  e ≠ e' → classList (classList_add c e d) e' = classList d e'.
Proof.
  intros Hne. unfold classList_add, classList at 1.
  by rewrite lookup_insert_ne.
Qed.

Lemma classList_remove_eq c e d :
  classList (classList_remove c e d) e = classList d e ∖ {[c]}.
Proof. unfold classList_remove, classList at 1. by rewrite lookup_insert_eq. Qed.

Lemma classList_remove_ne c e e' d :
  e ≠ e' → classList (classList_remove c e d) e' = classList d e'.
Proof.
  intros Hne. unfold classList_remove, classList at 1.
  by rewrite lookup_insert_ne.
Qed.

Lemma elem_of_classList_add c c' e e' d :
  c' ∈ classList (classList_add c e d) e' ↔
  (e = e' ∧ c' = c) ∨ c' ∈ classList d e'.
Proof.
  destruct (decide (e = e')) as [->|Hne].
  - rewrite classList_add_eq. set_solver.
  - rewrite classList_add_ne by done. naive_solver.
Qed.

Lemma elem_of_classList_remove c c' e e' d :
  c' ∈ classList (classList_remove c e d) e' ↔
  c' ∈ classList d e' ∧ ¬ (e = e' ∧ c' = c).
Proof.
  destruct (decide (e = e')) as [->|Hne].
  - rewrite classList_remove_eq. set_solver.
  - rewrite classList_remove_ne by done. naive_solver.
Qed.

(** Adding a class a node already has changes nothing. *)
Lemma classList_add_present c e d :
  d !! e ≠ None → c ∈ classList d e → classList_add c e d = d.
Proof.
  intros Hsome Hin. unfold classList_add.
  apply insert_id. unfold classList in *.
  destruct (d !! e) as [s|] eqn:E; [|done]. simpl in *.
  f_equal. set_solver.
Qed.

Lemma classList_add_idemp c e d :
  classList_add c e (classList_add c e d) = classList_add c e d.
Proof.
  apply classList_add_present.
  - unfold classList_add. by rewrite lookup_insert_eq.
  - rewrite classList_add_eq. set_solver.
Qed.

End DomFacts.

(** ** Page loader: hiding more than once *)

Module PageLoaderFacts.
Import Dom DomFacts PageLoader.

Lemma weight_schedule due t q :
  weight (schedule due t q) = task_weight t + weight q.
Proof.
  induction q as [|[d t'] q IH]; simpl; [done|].
  destruct (d <=? due)%nat; simpl; [rewrite IH|]; lia.
Qed.

Lemma In_schedule p due t q :
  In p (schedule due t q) ↔ p = (due, t) ∨ In p q.
Proof.
  induction q as [|[d t'] q IH]; simpl.
  - naive_solver.
  - destruct (d <=? due)%nat; simpl; [rewrite IH|]; naive_solver.
Qed.

Lemma weight_nil_inv q : weight q = 0 → q = [].
Proof.
  destruct q as [|[d t] q]; [done|]. simpl. destruct t; simpl; lia.
Qed.

Lemma hidden_set_contains s :
  hidden_set s → classList_contains "hidden" (loader s) (doc s) = true.
Proof.
  intros (c & Hc & Hin). unfold classList_contains, classList.
  rewrite Hc. simpl. by apply bool_decide_eq_true.
Qed.

Lemma hide_hidden_set s : hidden_set (hide s).
Proof.
  unfold hidden_set, hide, classList_add. simpl.
  eexists. rewrite lookup_insert_eq. split; [done|]. set_solver.
Qed.

Lemma hide_removal_due s : removal_due (hide s).
Proof.
  right. exists (now s + 500). unfold hide, setTimeout. simpl.
  apply In_schedule. by left.
Qed.

Lemma hide_loader s : loader (hide s) = loader s.
Proof. done. Qed.

(** Once the class is there, [hide()] leaves every class list alone. *)
Lemma hide_doc_hidden s : hidden_set s → doc (hide s) = doc s.
Proof.
  intros (c & Hc & Hin). unfold hide. simpl.
  apply classList_add_present.
  - by rewrite Hc.
  - unfold classList. by rewrite Hc.
Qed.

Lemma hide_times_loader n s : loader (hide_times n s) = loader s.
Proof. induction n as [|n IH]; [done|]. exact IH. Qed.

Lemma hide_times_doc n s : doc (hide_times (S n) s) = doc (hide s).
Proof.
  induction n as [|n IH]; [done|].
  change (hide_times (S (S n)) s) with (hide (hide_times (S n) s)).
  rewrite hide_doc_hidden; [done|]. apply hide_hidden_set.
Qed.

(** With the class set and a removal due, letting the timers run leaves
    the class lists as they are, detaches the loader and empties the
    queue. *)
Lemma drain_settles fuel : ∀ s,
  weight (timers s) ≤ fuel → hidden_set s → removal_due s →
  doc (drain fuel s) = doc s ∧ loader (drain fuel s) = loader s ∧
  attached (drain fuel s) = false ∧ timers (drain fuel s) = [].
Proof.
  induction fuel as [|fuel IH]; intros s Hw Hh Hr.
  - assert (timers s = []) as Hq by (apply weight_nil_inv; lia).
    simpl. destruct Hr as [Hr|[due Hr]]; [done|]. rewrite Hq in Hr. done.
  - simpl. unfold step.
    destruct (timers s) as [|[due t] q] eqn:Hq.
    { destruct Hr as [Hr|[due Hr]]; [done|]. rewrite Hq in Hr. done. }
    set (s0 := set_now (Nat.max (now s) due) (set_timers q s)).
    assert (hidden_set s0) as Hh0 by exact Hh.
    simpl in Hw.
    destruct t; simpl in Hw; cbn [run_task].
    + destruct (IH (hide s0)) as (Hd & Hl & Ha & Ht).
      * unfold hide, setTimeout. simpl. rewrite weight_schedule. simpl. lia.
      * apply hide_hidden_set.
      * apply hide_removal_due.
      * rewrite Hd, Hl. by rewrite hide_doc_hidden.
    + rewrite (hidden_set_contains s0 Hh0).
      destruct (IH s0) as (Hd & Hl & Ha & Ht); [simpl; lia|done| |done].
      destruct Hr as [Hr|[due' Hr]]; [by left|]. right. exists due'.
      rewrite Hq in Hr. simpl in Hr. destruct Hr as [Hr|Hr]; [done|exact Hr].
    + destruct (IH (set_attached false s0)) as (Hd & Hl & Ha & Ht);
        [simpl; lia|done|by left|done].
Qed.

Lemma settle_hidden s :
  hidden_set s → removal_due s →
  doc (settle s) = doc s ∧ loader (settle s) = loader s ∧
  attached (settle s) = false ∧ timers (settle s) = [].
Proof. intros. by apply drain_settles. Qed.

Lemma hide_establishes d0 l s :
  hidden_or_not_yet d0 l s → hidden_since d0 l (hide s).
Proof.
  intros [Hl Hd]. split; [|split; [apply hide_removal_due|exact Hl]].
  unfold hide. cbn. rewrite Hl.
  destruct Hd as [->|(-> & _)]; [done|apply classList_add_idemp].
Qed.

Lemma removal_due_pop s due t q :
  removal_due s → timers s = (due, t) :: q → t ≠ RemoveLoader →
  removal_due (set_now (Nat.max (now s) due) (set_timers q s)).
Proof.
  intros [Ha|[due' Hin]] Hq Hne; [by left|right].
  exists due'. rewrite Hq in Hin. cbn in *.
  destruct Hin as [Heq|Hin]; [congruence|exact Hin].
Qed.

Lemma step_preserves d0 l s s' :
  step s = Some s' →
  (hidden_or_not_yet d0 l s → hidden_or_not_yet d0 l s') ∧
  (hidden_since d0 l s → hidden_since d0 l s').
Proof.
  unfold step. destruct (timers s) as [|[due t] q] eqn:Hq; [done|].
  intros [= <-].
  set (s0 := set_now (Nat.max (now s) due) (set_timers q s)).
  assert (hidden_or_not_yet d0 l s → hidden_or_not_yet d0 l s0 ∨ t = RemoveLoader)
    as HW.
  { intros [Hl [Hd|(Hd & Hr & _)]]; [left; split; [done|by left]|].
    destruct (decide (t = RemoveLoader)) as [|Hne]; [by right|left].
    split; [done|right]. split; [done|split; [|done]].
    by apply (removal_due_pop s due t q). }
  assert (hidden_since d0 l s → t ≠ RemoveLoader → hidden_since d0 l s0) as HP.
  { intros (Hd & Hr & Hl) Hne. split; [done|split; [|done]].
    by apply (removal_due_pop s due t q). }
  destruct t; cbn [run_task].
  - split.
    + intros [HW0|?]%HW; [|done].
      destruct (hide_establishes d0 l s0 HW0) as (? & ? & ?).
      split; [done|by right].
    + intros HP0%HP; [|done]. apply hide_establishes.
      destruct HP0 as (? & ? & ?). split; [done|by right].
  - destruct (classList_contains "hidden" (loader s0) (doc s0)).
    + split; [intros [HW0|?]%HW; done|intros HP0%HP; done].
    + split.
      * intros [HW0|?]%HW; [|done].
        destruct (hide_establishes d0 l s0 HW0) as (? & ? & ?).
        split; [done|by right].
      * intros HP0%HP; [|done]. apply hide_establishes.
        destruct HP0 as (? & ? & ?). split; [done|by right].
  - split.
    + intros [Hl [Hd|(Hd & Hr & _)]].
      * split; [done|by left].
      * split; [done|right]. split; [done|split; [by left|done]].
    + intros (Hd & Hr & Hl). split; [done|split; [by left|done]].
Qed.

Lemma act_preserves d0 l a s :
  (hidden_or_not_yet d0 l s → hidden_or_not_yet d0 l (act a s)) ∧
  (hidden_since d0 l s → hidden_since d0 l (act a s)) ∧
  (hidden_or_not_yet d0 l s → a = CallHide → hidden_since d0 l (act a s)).
Proof.
  destruct a; cbn [act].
  - split; [|split].
    + intros HW. destruct (hide_establishes d0 l s HW) as (? & ? & ?).
      split; [done|by right].
    + intros HP. apply hide_establishes. destruct HP as (? & ? & ?).
      split; [done|by right].
    + intros HW _. by apply hide_establishes.
  - destruct (step s) as [s'|] eqn:E; cbn [default]; [|done].
    destruct (step_preserves d0 l s s' E). done.
Qed.

(** However calls of [hide()] and firing timeouts interleave, once
    [hide()] has been called the loader has the class and its removal is
    due. *)
Lemma run_actions_hidden d0 l acts : ∀ s,
  (hidden_since d0 l s → hidden_since d0 l (run_actions acts s)) ∧
  (hidden_or_not_yet d0 l s → In CallHide acts →
   hidden_since d0 l (run_actions acts s)).
Proof.
  induction acts as [|a acts IH]; intros s; [done|].
  unfold run_actions in *. cbn [fold_left].
  destruct (act_preserves d0 l a s) as (HW & HP & HH).
  destruct (IH (act a s)) as [IHP IHW].
  split; [by intros ?%HP%IHP|].
  intros Hs [->|Hin]; [by apply IHP, HH|apply IHW; [by apply HW|done]].
Qed.

Lemma hidden_since_hidden_set d0 l s : hidden_since d0 l s → hidden_set s.
Proof.
  intros (Hd & _ & Hl). unfold hidden_set. rewrite Hd, Hl.
  unfold classList_add. rewrite lookup_insert_eq.
  eexists. split; [done|set_solver].
Qed.

(** C10. [PageLoader.hide] is idempotent in its final effect: whatever the
    state it is called in, calling it [n+1] times in a row and letting
    every pending timeout fire leaves the same class lists and the same
    attachment as calling it once; in both, the loader carries the class
    [hidden], is detached from the document, and no timeout is left. The
    same holds when the calls (at least one) are interleaved in any way
    with timeouts firing, as when both the ceiling timeout and the load
    handler call it. *)
Theorem hide_idempotent (s : state) (n : nat) (acts : list action) :
  doc (settle (hide_times (S n) s)) = doc (settle (hide s)) ∧
  attached (settle (hide_times (S n) s)) = attached (settle (hide s)) ∧
  loader (settle (hide_times (S n) s)) = loader (settle (hide s)) ∧
  classList_contains "hidden" (loader s) (doc (settle (hide s))) = true ∧
  attached (settle (hide s)) = false ∧
  timers (settle (hide_times (S n) s)) = [] ∧
  timers (settle (hide s)) = [] ∧
  (In CallHide acts →
   doc (settle (run_actions acts s)) = doc (settle (hide s)) ∧
   attached (settle (run_actions acts s)) = attached (settle (hide s)) ∧
   timers (settle (run_actions acts s)) = []).
Proof.
  destruct (settle_hidden (hide s)) as (Hd1 & Hl1 & Ha1 & Ht1);
    [apply hide_hidden_set|apply hide_removal_due|].
  destruct (settle_hidden (hide_times (S n) s)) as (Hdn & Hln & Han & Htn);
    [apply hide_hidden_set|apply hide_removal_due|].
  rewrite Hdn, Hd1, Han, Ha1, Hln, Hl1, Htn, Ht1, hide_times_doc.
  split; [done|]. split; [done|]. split.
  { change (hide_times (S n) s) with (hide (hide_times n s)).
    rewrite (hide_loader (hide_times n s)), (hide_loader s).
    apply hide_times_loader. }
  split; [apply (hidden_set_contains (hide s)), hide_hidden_set|].
  split; [done|]. split; [done|]. split; [done|].
  intros Hin.
  destruct (run_actions_hidden (doc s) (loader s) acts s) as [_ Hrun].
  assert (hidden_since (doc s) (loader s) (run_actions acts s)) as HP.
  { apply Hrun; [|done]. split; [done|by left]. }
  destruct (settle_hidden (run_actions acts s)) as (Hd & _ & Ha & Ht).
  { by eapply hidden_since_hidden_set. }
  { by destruct HP as (_ & ? & _). }
  rewrite Hd, Ha, Ht. destruct HP as (-> & _ & _). done.
Qed.

(** The theorem on a loader that is hidden by the ceiling timeout and
    again by the late load handler. *)
Lemma hide_idempotent_witness :
  let s := mkState 7 ∅ true 0 [] false in
  let acts := [Tick; CallHide; Tick; CallHide; Tick] in
  doc (settle (run_actions acts s)) = doc (settle (hide s)) ∧
  attached (settle (run_actions acts s)) = attached (settle (hide s)) ∧
  timers (settle (run_actions acts s)) = [].
Proof.
  intros s acts.
  destruct (hide_idempotent s 2 acts) as (_ & _ & _ & _ & _ & _ & _ & H).
  apply H. right. left. reflexivity.
Defined.

Lemma contains_hidden_set s :
  classList_contains "hidden" (loader s) (doc s) = true → hidden_set s.
Proof.
  unfold classList_contains, classList, hidden_set.
  intros H%bool_decide_eq_true.
  destruct (doc s !! loader s) as [c|]; simpl in H; [by exists c|set_solver].
Qed.

(** As long as hiding is pending or has happened with its removal due, the
    timers bring the loader to hidden and detached. *)
Lemma drain_hides fuel : ∀ s,
  weight (timers s) ≤ fuel →
  (hidden_set s → removal_due s) → hidden_set s ∨ hide_due s →
  classList_contains "hidden" (loader s) (doc (drain fuel s)) = true ∧
  attached (drain fuel s) = false ∧ timers (drain fuel s) = [].
Proof.
  induction fuel as [|fuel IH]; intros s Hw Hr Hh.
  - assert (timers s = []) as Hq by (apply weight_nil_inv; lia).
    destruct Hh as [Hh|(due & t & Hin & _)]; [|by rewrite Hq in Hin].
    simpl. split; [by apply hidden_set_contains|].
    destruct (Hr Hh) as [?|[due Hin]]; [done|by rewrite Hq in Hin].
  - simpl. unfold step.
    destruct (timers s) as [|[due t] q] eqn:Hq.
    { destruct Hh as [Hh|(due & t & Hin & _)]; [|by rewrite Hq in Hin].
      split; [by apply hidden_set_contains|].
      destruct (Hr Hh) as [?|[due Hin]]; [done|by rewrite Hq in Hin]. }
    set (s0 := set_now (Nat.max (now s) due) (set_timers q s)).
    simpl in Hw.
    assert (∀ s1, loader s1 = loader s → weight (timers s1) ≤ fuel →
      hidden_set s1 → removal_due s1 →
      classList_contains "hidden" (loader s) (doc (drain fuel s1)) = true ∧
      attached (drain fuel s1) = false ∧ timers (drain fuel s1) = []) as Hgo.
    { intros s1 Hl ? ? ?. rewrite <- Hl. apply IH; auto. }
    destruct t; simpl in Hw; cbn [run_task].
    + apply Hgo; [done| |apply hide_hidden_set|apply hide_removal_due].
      unfold hide, setTimeout. simpl. rewrite weight_schedule. simpl. lia.
    + destruct (classList_contains "hidden" (loader s0) (doc s0)) eqn:Hc.
      * apply contains_hidden_set in Hc.
        apply Hgo; [done|simpl; lia|done|].
        destruct (Hr Hc) as [?|[due' Hin]]; [by left|]. right. exists due'.
        rewrite Hq in Hin. simpl in Hin. by destruct Hin.
      * apply Hgo; [done| |apply hide_hidden_set|apply hide_removal_due].
        unfold hide, setTimeout. simpl. rewrite weight_schedule. simpl. lia.
    + change (loader s) with (loader (set_attached false s0)).
      apply IH; [simpl; lia|by left|].
      destruct Hh as [Hh|(due' & t' & Hin & Hne)]; [by left|right].
      exists due', t'. split; [|done]. rewrite Hq in Hin. simpl in Hin.
      destruct Hin as [[= _ <-]|Hin]; done.
Qed.

(** The two callers of [hide()]: whenever the load event arrives (or if it
    never does), a loader whose markup does not carry the class ends up
    hidden and detached once the timers have fired. *)
Lemma init_then_load_settles l d t0 rs (load_at : option nat) s0 :
  "hidden" ∉ classList d l →
  newPageLoader (Some l) rs d t0 = Some s0 →
  let s1 := match load_at with
            | Some t => on_load (set_now (Nat.max (now s0) t) s0)
            | None => s0
            end in
  classList_contains "hidden" l (doc (settle s1)) = true ∧
  attached (settle s1) = false ∧ timers (settle s1) = [].
Proof.
  intros Hnot [= <-] s1.
  assert (loader s1 = l) as Hl.
  { subst s1. destruct load_at, rs; simpl; unfold on_load; simpl; done. }
  rewrite <- Hl. apply drain_hides; [done| |].
  - subst s1. destruct rs.
    3: { intros _. destruct load_at; right; eexists; simpl;
         unfold on_load; simpl; left; reflexivity. }
    all: intros (c & Hc & Hin); exfalso; apply Hnot;
      destruct load_at; simpl in Hc; unfold classList;
      unfold on_load in Hc; simpl in Hc; by rewrite Hc.
  - subst s1. destruct rs.
    3: { left. destruct load_at; simpl; unfold on_load; simpl;
         unfold hidden_set; simpl; unfold classList_add;
         rewrite lookup_insert_eq; eexists; (split; [done|set_solver]). }
    all: right; destruct load_at; simpl; unfold on_load; simpl;
      exists (t0 + 3000), CeilingCheck; (split; [|done]);
      repeat (apply In_schedule; try (left; reflexivity); right);
      try (by left).
Qed.

End PageLoaderFacts.

(** ** Counter animation: the eased value, frame by frame *)

Module CounterFacts.
Import JsString Counter.

Lemma append_empty_r (s : string) : (s +:+ EmptyString)%string = s.
Proof.
  induction s as [|a s IH]; [done|].
  change (String a (s +:+ EmptyString) = String a s). by rewrite IH.
Qed.




Lemma easeOut_0 : (easeOut 0 == 0)%Q.
Proof. reflexivity. Qed.


Lemma progress_at_le_1 c t : (progress_at c t <= 1)%Q.
Proof. apply Q.le_min_r. Qed.



Lemma progress_at_done c t :
  (0 < duration c → duration c <= t - startTime c →
   Qle_bool 1 (progress_at c t) = true)%Q.
Proof.
  intros Hd Ht. apply Qle_bool_iff. unfold progress_at.
  apply Q.min_glb; [|lra].
  apply Qle_shift_div_l; [done|lra].
Qed.

(** The completion branch shows what the formula gives at progress 1:
    in exact arithmetic the floor loses nothing there. *)
Lemma displayed_value_formula c t :
  displayed_value c t =
  Qfloor (inject_Z (target c) * easeOut (progress_at c t))%Q.
Proof.
  unfold displayed_value.
  destruct (Qle_bool 1 (progress_at c t)) eqn:E; cbn [negb].
  - apply Qle_bool_iff in E.
    assert (progress_at c t == 1)%Q as Hp.
    { apply Qle_antisym; [apply progress_at_le_1|done]. }
    rewrite <- (Qfloor_Z (target c)) at 1. apply Qfloor_comp.
    unfold easeOut. rewrite Hp. ring.
  - apply Qfloor_comp. ring.
Qed.





Lemma displayed_values_In c frames v :
  In v (displayed_values frames c) →
  ∃ t, In t frames ∧ v = displayed_value c t.
Proof.
  induction frames as [|t rest IH]; simpl; [done|].
  intros [<-|Hin]; [exists t; auto|].
  destruct (negb _); [|done].
  destruct (IH Hin) as (t' & ? & ?). exists t'. auto.
Qed.

Lemma displayed_values_ext c c' frames :
  target c' = target c → duration c' = duration c →
  startTime c' = startTime c →
  displayed_values frames c' = displayed_values frames c.
Proof.
  intros Ht Hd Hs. induction frames as [|t rest IH]; [done|].
  cbn [displayed_values]. unfold displayed_value, progress_at.
  by rewrite Ht, Hd, Hs, IH.
Qed.

Section Text.
Variable toLocaleString : Z → string.

Lemma update_fields t c :
  target (update toLocaleString t c) = target c ∧
  duration (update toLocaleString t c) = duration c ∧
  startTime (update toLocaleString t c) = startTime c ∧
  dataset_suffix (element_of (update toLocaleString t c)) =
    dataset_suffix (element_of c).
Proof.
  unfold update.
  destruct (negb (Qle_bool 1 _)); [done|]. cbn -[Qmin Qfloor Qpower].
  destruct (truthy _); done.
Qed.


Lemma update_text t c :
  textContent (element_of (update toLocaleString t c))
  = shown_of toLocaleString c t.
Proof.
  unfold update, shown_of, spec_text.
  destruct (Qle_bool 1 _) eqn:E; cbn [negb].
  - cbn -[Qmin Qfloor Qpower].
    destruct (dataset_suffix (element_of c)) as [[|a sfx]|]; cbn [default truthy];
      cbn -[Qmin Qfloor Qpower append]; by rewrite ?append_empty_r.
  - cbn -[Qmin Qfloor Qpower]. f_equal. apply Qfloor_comp. ring.
Qed.

Lemma update_frame_pending t c :
  frame_pending (update toLocaleString t c) =
  negb (Qle_bool 1 (progress_at c t)).
Proof.
  unfold update, progress_at.
  destruct (Qle_bool 1 _); cbn [negb]; [|done].
  cbn -[Qmin Qfloor Qpower]. reflexivity.
Qed.


(** The frames the animation consumes are those up to the first one at
    which progress has reached 1. *)
Lemma run_frames_values frames : ∀ c,
  frame_pending c = true →
  length (run_frames toLocaleString frames c) =
  length (displayed_values frames c).
Proof.
  induction frames as [|t rest IH]; intros c Hp; [done|].
  cbn [run_frames displayed_values]. rewrite Hp. cbn [length]. f_equal.
  pose proof (update_frame_pending t c) as Hu.
  pose proof (update_fields t c) as (Ht & Hd & Hs & _).
  destruct (negb (Qle_bool 1 (progress_at c t))) eqn:E.
  - rewrite (IH _ Hu). f_equal. by apply displayed_values_ext.
  - destruct rest; cbn [run_frames]; [done|by rewrite Hu].
Qed.

(** The text a frame leaves is the rendering of the number on display,
    followed by the suffix on the last frame. *)
Lemma update_text_value t c :
  textContent (element_of (update toLocaleString t c)) =
  toLocaleString (displayed_value c t) +:+
  (if Qle_bool 1 (progress_at c t)
   then default EmptyString (dataset_suffix (element_of c))
   else EmptyString).
Proof.
  rewrite update_text. unfold shown_of, spec_text, displayed_value, progress_at.
  destruct (Qle_bool 1 _); cbn [negb]; [done|].
  rewrite append_empty_r. f_equal. apply Qfloor_comp.
  unfold easeOut. ring.
Qed.

Lemma run_frames_shows_values frames : ∀ c,
  frame_pending c = true →
  Forall2 (λ c' v, ∃ sfx, textContent (element_of c') = toLocaleString v +:+ sfx)
    (run_frames toLocaleString frames c) (displayed_values frames c).
Proof.
  induction frames as [|t rest IH]; intros c Hp; [constructor|].
  cbn [run_frames displayed_values]. rewrite Hp. constructor.
  - eexists. apply update_text_value.
  - pose proof (update_frame_pending t c) as Hu.
    pose proof (update_fields t c) as (Ht & Hd & Hs & _).
    destruct (negb (Qle_bool 1 (progress_at c t))) eqn:E.
    + rewrite <- (displayed_values_ext c (update toLocaleString t c)) by done.
      by apply IH.
    + destruct rest; cbn [run_frames]; [constructor|rewrite Hu; constructor].
Qed.

End Text.



(** The specification's example: target 1000 over 1000ms shows 0 at the
    start and exactly 1,000 (with the suffix) at the end. *)
Example counter_1000 :
  let el := mkElement (Some "1000") (Some "+") EmptyString in
  let c := animate 0 (newCounterAnimation el (Some 1000%Q)) in
  map (λ c', textContent (element_of c'))
    (run_frames en_US [0; 16; 500; 999; 1000; 1016]%Q c)
  = ["0"; "47"; "875"; "999"; "1,000+"].
Proof. vm_compute. reflexivity. Qed.






End CounterFacts.

(** ** FAQ accordion: one item at a time *)

Module FaqFacts.
Import Dom DomFacts Faq.

Lemma close_others_spec item items : ∀ d e c,
  c ∈ classList
        (fold_left
           (fun d otherItem =>
              if decide (otherItem ≠ item)
              then classList_remove "open" otherItem d else d) items d) e
  ↔ c ∈ classList d e ∧ ¬ (e ∈ items ∧ e ≠ item ∧ c = "open").
Proof.
  induction items as [|a items IH]; intros d e c; cbn [fold_left].
  - set_solver.
  - rewrite IH. destruct (decide (a ≠ item)) as [Hne|Heq].
    + rewrite elem_of_classList_remove, elem_of_cons. naive_solver.
    + apply dec_stable in Heq. subst a. rewrite elem_of_cons. naive_solver.
Qed.

Lemma toggle_spec c item d e c' :
  c' ∈ classList (classList_toggle c item d) e ↔
  if decide (e = item ∧ c' = c) then c' ∉ classList d e
  else c' ∈ classList d e.
Proof.
  unfold classList_toggle, classList_contains.
  destruct (bool_decide (c ∈ classList d item)) eqn:E.
  - apply bool_decide_eq_true in E.
    rewrite elem_of_classList_remove. case_decide; naive_solver.
  - apply bool_decide_eq_false in E.
    rewrite elem_of_classList_add. case_decide; naive_solver.
Qed.

(** After the listener of [item] has run, an item of the list is open
    exactly if it is [item] and was closed. *)
Lemma on_click_open faqItems item d e :
  e ∈ faqItems →
  "open" ∈ classList (on_click faqItems item d) e ↔
  e = item ∧ "open" ∉ classList d item.
Proof.
  intros Hin. unfold on_click. rewrite toggle_spec.
  case_decide as Hd.
  - destruct Hd as [-> _]. rewrite close_others_spec. naive_solver.
  - rewrite close_others_spec. naive_solver.
Qed.

Lemma filter_none {A} (P : A → Prop) `{∀ x, Decision (P x)} (l : list A) :
  (∀ x, x ∈ l → ¬ P x) → filter P l = [].
Proof.
  induction l as [|a l IH]; intros Hall; [done|].
  rewrite filter_cons_False by (apply Hall; left).
  apply IH. intros x Hx. apply Hall. by right.
Qed.

Lemma filter_only {A} (P : A → Prop) `{∀ x, Decision (P x)} (l : list A) x :
  NoDup l → x ∈ l → (∀ y, y ∈ l → P y ↔ y = x) → filter P l = [x].
Proof.
  induction l as [|a l IH]; intros Hnd Hin Hall; [by apply elem_of_nil in Hin|].
  apply NoDup_cons in Hnd as [Hnotin Hnd].
  apply elem_of_cons in Hin as [->|Hin].
  - rewrite filter_cons_True by (apply Hall; [left|done]).
    f_equal. apply filter_none. intros y Hy HP.
    apply Hall in HP; [|by right]. by subst.
  - rewrite filter_cons_False.
    + apply IH; [done..|]. intros y Hy. apply Hall. by right.
    + intros HP. apply Hall in HP; [|left]. by subst.
Qed.

Lemma open_items_on_click faqItems item d :
  NoDup faqItems → item ∈ faqItems →
  open_items faqItems (on_click faqItems item d) =
  if decide ("open" ∈ classList d item) then [] else [item].
Proof.
  intros Hnd Hin. unfold open_items. case_decide as Hopen.
  - apply filter_none. intros e He. rewrite on_click_open by done.
    naive_solver.
  - apply filter_only; [done..|]. intros e He.
    rewrite on_click_open by done. naive_solver.
Qed.

Lemma open_items_click faqItems has_question item d :
  NoDup faqItems → length (open_items faqItems d) ≤ 1 →
  length (open_items faqItems (click faqItems has_question item d)) ≤ 1.
Proof.
  intros Hnd Hle. unfold click.
  destruct (bool_decide (item ∈ faqItems)) eqn:E; [|done].
  apply bool_decide_eq_true in E.
  destruct (has_question item); [|done]. cbn [andb].
  rewrite open_items_on_click by done. case_decide; simpl; lia.
Qed.

Lemma open_items_clicks faqItems has_question cs : ∀ d,
  NoDup faqItems → length (open_items faqItems d) ≤ 1 →
  length (open_items faqItems (clicks faqItems has_question cs d)) ≤ 1.
Proof.
  induction cs as [|c cs IH]; intros d Hnd Hle; [done|].
  cbn [clicks fold_left]. apply IH; [done|]. by apply open_items_click.
Qed.

(** C5. Clicking the question of item [B] closes every other item and
    toggles [B]. With [A] open and [B] closed, the click leaves exactly
    [B] open and [A] closed, and a second click on [B] leaves no item
    open. Hence clicks never take a page with at most one open item to one
    with more. *)
Theorem faq_one_open (faqItems : list elem) (has_question : elem → bool)
    (d : gmap nat (gset string)) (A B : elem) :
  NoDup faqItems → A ∈ faqItems → B ∈ faqItems → has_question B = true →
  A ≠ B → "open" ∈ classList d A → "open" ∉ classList d B →
  let d1 := click faqItems has_question B d in
  let d2 := click faqItems has_question B d1 in
  (∀ d0 e, e ∈ faqItems → e ≠ B →
     "open" ∉ classList (click faqItems has_question B d0) e) ∧
  (∀ d0, "open" ∈ classList (click faqItems has_question B d0) B ↔
         "open" ∉ classList d0 B) ∧
  open_items faqItems d1 = [B] ∧ ("open" ∉ classList d1 A) ∧
  open_items faqItems d2 = [] ∧
  (∀ d0, length (open_items faqItems (click faqItems has_question B d0)) ≤ 1) ∧
  (∀ d0 cs, length (open_items faqItems d0) ≤ 1 →
     length (open_items faqItems (clicks faqItems has_question cs d0)) ≤ 1).
Proof.
  intros Hnd HA HB Hq Hne HopenA HclosedB d1 d2.
  assert (∀ d0, click faqItems has_question B d0 = on_click faqItems B d0)
    as Hclick.
  { intros d0. unfold click. rewrite Hq, bool_decide_eq_true_2; done. }
  subst d1 d2. rewrite !Hclick.
  split; [|split; [|split; [|split; [|split; [|split]]]]].
  - intros d0 e He HeB. rewrite Hclick, on_click_open by done. naive_solver.
  - intros d0. rewrite Hclick, on_click_open by done. naive_solver.
  - rewrite open_items_on_click by done. by rewrite decide_False.
  - rewrite on_click_open by done. naive_solver.
  - rewrite open_items_on_click by done. rewrite decide_True; [done|].
    rewrite on_click_open by done. done.
  - intros d0. rewrite Hclick, open_items_on_click by done.
    case_decide; simpl; lia.
  - intros d0 cs Hle. by apply open_items_clicks.
Qed.

(** The theorem at a page of three items with the first one open. *)
Lemma faq_one_open_witness :
  let faqItems := [1; 2; 3] in
  let d : gmap nat (gset string) := {[ 1 := {[ "faq-item"; "open" ]} ]} in
  let d1 := click faqItems (fun _ => true) 2 d in
  let d2 := click faqItems (fun _ => true) 2 d1 in
  open_items faqItems d = [1] ∧
  open_items faqItems d1 = [2] ∧ ("open" ∉ classList d1 1) ∧
  open_items faqItems d2 = [].
Proof.
  intros faqItems d d1 d2.
  destruct (faq_one_open faqItems (fun _ => true) d 1 2)
    as (_ & _ & H1 & H2 & H3 & _ & _).
  - apply NoDup_cons. split; [set_solver|].
    apply NoDup_cons. split; [set_solver|].
    apply NoDup_cons. split; [set_solver|]. apply NoDup_nil. done.
  - set_solver.
  - set_solver.
  - reflexivity.
  - lia.
  - unfold classList, d. rewrite lookup_singleton_eq. simpl. set_solver.
  - unfold classList, d. rewrite lookup_singleton_ne by lia. simpl. set_solver.
  - split; [|by repeat split].
    vm_compute. reflexivity.
Defined.

End FaqFacts.

(** ** Testimonial carousel: wrapping around *)

Module CarouselFacts.
Import JsString Carousel.

Lemma goToSlide_slides index s : slides (goToSlide index s) = slides s.
Proof. done. Qed.

Lemma auto_advance_slides s : slides (auto_advance s) = slides s.
Proof. done. Qed.

Lemma auto_advance_current s i :
  0 < slides s → currentSlide s = Some i →
  currentSlide (auto_advance s) = Some ((i + 1) mod slides s).
Proof.
  intros Hn Hi. unfold auto_advance, goToSlide, next_index. cbn.
  rewrite Hi. destruct (slides s =? 0) eqn:E; [|done].
  apply Nat.eqb_eq in E. lia.
Qed.

Lemma advance_times_slides k s : slides (advance_times k s) = slides s.
Proof. induction k as [|k IH]; [done|]. exact IH. Qed.

(** [k] ticks from index [i] land on [(i + k) mod n]. *)
Lemma advance_times_current k : ∀ s i,
  0 < slides s → i < slides s → currentSlide s = Some i →
  currentSlide (advance_times k s) = Some ((i + k) mod slides s).
Proof.
  induction k as [|k IH]; intros s i Hn Hlt Hi.
  - rewrite Nat.add_0_r, Nat.mod_small by done. exact Hi.
  - change (advance_times (S k) s) with (auto_advance (advance_times k s)).
    rewrite (auto_advance_current _ ((i + k) mod slides s)).
    + rewrite advance_times_slides, Nat.Div0.add_mod_idemp_l.
      f_equal. f_equal. lia.
    + by rewrite advance_times_slides.
    + by apply IH.
Qed.

Lemma goToSlide_dots index s j b :
  dots (goToSlide index s) !! j = Some b → b = index_eqb j index.
Proof.
  unfold goToSlide. cbn. rewrite list_lookup_imap.
  destruct (dots s !! j); simpl; congruence.
Qed.

(** C4. With [n > 0] slides, a tick of the interval timer moves the
    current index from [i] to [(i+1) mod n] and sets the track's transform
    for that index; [k] ticks from [i < n] land on [(i+k) mod n], so five
    ticks from index 0 with four slides land on index 1. Jumping to index
    [k] sets the transform to [translateX(-(k*100)%)] and makes the [k]-th
    dot the only active one; at index 1 the transform is
    [translateX(-100%)]. *)
Theorem carousel_advance (s : carousel) (i k : nat) (markup_transform : string) :
  0 < slides s → currentSlide s = Some i →
  currentSlide (auto_advance s) = Some ((i + 1) mod slides s) ∧
  transform (auto_advance s) =
    "translateX(-" +:+ nat_to_string ((i + 1) mod slides s * 100) +:+ "%)" ∧
  (i < slides s →
   currentSlide (advance_times k s) = Some ((i + k) mod slides s)) ∧
  currentSlide (advance_times 5 (initTestimonialCarousel 4 markup_transform)) = Some 1 ∧
  transform (advance_times 5 (initTestimonialCarousel 4 markup_transform)) = "translateX(-100%)" ∧
  currentSlide (goToSlide (Some k) s) = Some k ∧
  transform (goToSlide (Some k) s) =
    "translateX(-" +:+ nat_to_string (k * 100) +:+ "%)" ∧
  transform (goToSlide (Some 1) s) = "translateX(-100%)" ∧
  (∀ j b, dots (goToSlide (Some k) s) !! j = Some b → b = (j =? k)).
Proof.
  intros Hn Hi. repeat split; try reflexivity.
  - by apply auto_advance_current.
  - unfold auto_advance, goToSlide, next_index. cbn. rewrite Hi.
    destruct (slides s =? 0) eqn:E; [|done].
    apply Nat.eqb_eq in E. lia.
  - intros Hlt. by apply advance_times_current.
  - intros j b Hb. by apply goToSlide_dots in Hb.
Qed.

(** The theorem at the specification's carousel of four slides. *)
Lemma carousel_advance_witness :
  let s := initTestimonialCarousel 4 EmptyString in
  currentSlide (auto_advance s) = Some 1 ∧
  transform (auto_advance s) = "translateX(-100%)" ∧
  currentSlide (advance_times 5 s) = Some 1 ∧
  transform (goToSlide (Some 2) s) = "translateX(-200%)" ∧
  dots (goToSlide (Some 2) s) = [false; false; true; false].
Proof.
  intros s.
  destruct (carousel_advance s 0 2 EmptyString) as (H1 & H2 & _ & H4 & _ & _ & H7 & _).
  - vm_compute. lia.
  - reflexivity.
  - split; [exact H1|]. split; [exact H2|]. split; [exact H4|].
    split; [exact H7|reflexivity].
Defined.

End CarouselFacts.

(** ** Form validation: what a submit leaves behind *)

Module FormsFacts.
Import JsString Forms.

Lemma check_input_step isValid done c :
  check_input (isValid, done) c =
  (isValid && negb (missing c), done ++ [checked c]).
Proof.
  unfold check_input, missing, checked.
  destruct (required c); cbn [andb negb]; [|by rewrite andb_true_r].
  destruct (negb (truthy (trim (value c)))); cbn [negb];
    by rewrite ?andb_false_r, ?andb_true_r.
Qed.

Lemma fold_check_input cs : ∀ isValid done,
  fold_left check_input cs (isValid, done) =
  (isValid && negb (existsb missing cs), done ++ map checked cs).
Proof.
  induction cs as [|c cs IH]; intros isValid done; cbn [fold_left existsb map].
  - by rewrite andb_true_r, app_nil_r.
  - rewrite check_input_step, IH, <- app_assoc, negb_orb, andb_assoc. done.
Qed.


Lemma checked_value c : value (checked c) = value c.
Proof. unfold checked. by repeat case_match. Qed.

Lemma checked_name c : name (checked c) = name c.
Proof. unfold checked. by repeat case_match. Qed.


Lemma checked_required c : required (checked c) = required c.
Proof. unfold checked. by repeat case_match. Qed.

Lemma FormData_checked cs sd sd' :
  FormData (mkForm (map checked cs) sd) = FormData (mkForm cs sd').
Proof.
  unfold FormData. cbn. induction cs as [|c cs IH]; [done|].
  cbn. rewrite checked_name, checked_value, IH. done.
Qed.

(** The listener, one branch at a time. *)
Lemma on_submit_unfold f :
  on_submit f =
  if existsb missing (controls f)
  then mkResult (mkForm (map checked (controls f)) (success_display f)) true []
  else mkResult
         (reset (mkForm (map checked (controls f))
                   ((fun _ => "block") <$> success_display f)))
         true [fromEntries (FormData f)].
Proof.
  destruct f as [cs sd].
  unfold on_submit. rewrite fold_check_input.
  cbn [andb app controls success_display].
  destruct (existsb missing cs); cbn [negb]; [done|].
  rewrite (FormData_checked cs sd sd). by destruct sd.
Qed.




End FormsFacts.

(** ** Scroll reveals: fire once *)

Module RevealFacts.
Import Dom DomFacts JsString RevealScript.

(** Adding one class to every element of a list. *)
Lemma elem_of_add_all c els : ∀ d e c',
  c' ∈ classList (fold_left (fun d el => classList_add c el d) els d) e ↔
  (e ∈ els ∧ c' = c) ∨ c' ∈ classList d e.
Proof.
  induction els as [|a els IH]; intros d e c'; cbn [fold_left].
  - set_solver.
  - rewrite IH, elem_of_classList_add, elem_of_cons. naive_solver.
Qed.

Lemma add_all_lookup c els : ∀ d e,
  e ∈ els ∨ d !! e ≠ None →
  fold_left (fun d el => classList_add c el d) els d !! e ≠ None.
Proof.
  induction els as [|a els IH]; intros d e He; cbn [fold_left].
  - destruct He as [He|He]; [by apply elem_of_nil in He|done].
  - apply IH. destruct (decide (a = e)) as [->|Hne].
    + right. unfold classList_add. by rewrite lookup_insert_eq.
    + destruct He as [He|He].
      * apply elem_of_cons in He as [->|He]; [done|by left].
      * right. unfold classList_add. by rewrite lookup_insert_ne.
Qed.

Lemma add_all_present c els : ∀ d,
  (∀ e, e ∈ els → d !! e ≠ None ∧ c ∈ classList d e) →
  fold_left (fun d el => classList_add c el d) els d = d.
Proof.
  induction els as [|a els IH]; intros d Hall; [done|]. cbn [fold_left].
  destruct (Hall a) as [Ha1 Ha2]; [left|].
  rewrite classList_add_present by done.
  apply IH. intros e He. apply Hall. by right.
Qed.

Lemma add_all_idemp c els d :
  fold_left (fun d el => classList_add c el d) els
    (fold_left (fun d el => classList_add c el d) els d)
  = fold_left (fun d el => classList_add c el d) els d.
Proof.
  apply add_all_present. intros e He. split.
  - apply add_all_lookup. by left.
  - apply elem_of_add_all. by left.
Qed.

Lemma elem_of_intersecting el entries :
  el ∈ intersecting entries ↔ (el, true) ∈ entries.
Proof.
  unfold intersecting. rewrite list_elem_of_fmap. split.
  - intros ([e b] & -> & [Hb Hin]%list_elem_of_filter). cbn in *. by subst.
  - intros Hin. exists (el, true). split; [done|].
    by apply list_elem_of_filter.
Qed.

Lemma callback_spec entries : ∀ sr d,
  callback entries (sr, d) =
  (mkScrollReveals (elements sr)
     ((fun o => o ∖ list_to_set (intersecting entries)) <$> observer sr),
   fold_left (fun d el => classList_add "revealed" el d)
     (intersecting entries) d).
Proof.
  induction entries as [|[t b] entries IH]; intros [els ob] d.
  - cbn. f_equal. f_equal. destruct ob as [o|]; cbn; f_equal. set_solver.
  - change (callback ((t, b) :: entries) (mkScrollReveals els ob, d))
      with (callback entries (on_entry (mkScrollReveals els ob, d) (t, b))).
    unfold on_entry, intersecting. cbn [fst snd]. destruct b.
    + unfold observer_unobserve, revealElement. rewrite IH.
      rewrite filter_cons_True by done. rewrite fmap_cons.
      cbn [fold_left elements observer fst]. f_equal. f_equal.
      destruct ob as [o|]; cbn; f_equal. set_solver.
    + rewrite IH. by rewrite filter_cons_False by done.
Qed.

Lemma callback_idemp entries st :
  callback entries (callback entries st) = callback entries st.
Proof.
  destruct st as [sr d]. rewrite !callback_spec. cbn.
  rewrite add_all_idemp. f_equal. f_equal.
  destruct (observer sr) as [o|]; cbn; f_equal. set_solver.
Qed.

Lemma observeElements_observer els : ∀ els' o,
  observer (fold_left (fun sr el => observer_observe el sr) els
              (mkScrollReveals els' (Some o)))
  = Some (list_to_set els ∪ o).
Proof.
  induction els as [|a els IH]; intros els' o; cbn [fold_left].
  - cbn. f_equal. set_solver.
  - unfold observer_observe at 2. cbn. rewrite IH. f_equal. set_solver.
Qed.

(** C2. With intersection observation available, a new [ScrollReveals]
    watches every marked element and reveals none. Any callback that
    reports a marked element as intersecting leaves it with the class
    [revealed] and out of the observer's targets; running a callback a
    second time changes nothing, and no callback takes the class away.
    Without intersection observation every marked element is revealed at
    once and no observer exists. *)
Theorem scroll_reveals_fire_once (marked : list elem)
    (d : gmap nat (gset string)) (el : elem) :
  el ∈ marked →
  let st0 := newScrollReveals true marked d in
  let fallback := newScrollReveals false marked d in
  observed el st0.1 ∧ st0.2 = d ∧
  ("revealed" ∈ classList (callback [(el, true)] st0).2 el) ∧
  ¬ observed el (callback [(el, true)] st0).1 ∧
  (∀ es st, (el, true) ∈ es →
     "revealed" ∈ classList (callback es st).2 el
     ∧ ¬ observed el (callback es st).1) ∧
  (∀ es st, callback es (callback es st) = callback es st) ∧
  (∀ es st e, "revealed" ∈ classList st.2 e →
     "revealed" ∈ classList (callback es st).2 e) ∧
  observer fallback.1 = None ∧
  (∀ e, e ∈ marked → "revealed" ∈ classList fallback.2 e).
Proof.
  intros Hel st0 fallback.
  assert (∀ es st, (el, true) ∈ es →
     "revealed" ∈ classList (callback es st).2 el
     ∧ ¬ observed el (callback es st).1) as Hfire.
  { intros es [sr d0] Hin. rewrite callback_spec. cbn. split.
    - apply elem_of_add_all. left. split; [|done].
      by apply elem_of_intersecting.
    - intros (o & Ho & Hino). cbn in Ho.
      destruct (observer sr) as [o0|]; cbn in Ho; [|done].
      injection Ho as <-. apply elem_of_difference in Hino as [_ Hnot].
      apply Hnot, elem_of_list_to_set. by apply elem_of_intersecting. }
  split; [|split; [|split; [|split; [|split; [|split; [|split; [|split]]]]]]].
  - subst st0. unfold newScrollReveals, init, observeElements, createObserver.
    cbn. eexists. split; [apply observeElements_observer|].
    apply elem_of_union_l, elem_of_list_to_set, Hel.
  - done.
  - apply Hfire. left.
  - apply Hfire. left.
  - exact Hfire.
  - intros es st. apply callback_idemp.
  - intros es [sr d0] e Hin. rewrite callback_spec. cbn.
    apply elem_of_add_all. by right.
  - done.
  - intros e He. subst fallback. unfold newScrollReveals, init, revealAll.
    cbn. apply elem_of_add_all. by left.
Qed.

(** The theorem at a page with three marked elements. *)
Lemma scroll_reveals_fire_once_witness :
  let st0 := newScrollReveals true [4; 5; 6] ∅ in
  observed 5 st0.1 ∧
  ("revealed" ∈ classList (callback [(5, true)] st0).2 5) ∧
  ¬ observed 5 (callback [(5, true)] st0).1 ∧
  callback [(5, true)] (callback [(5, true)] st0) = callback [(5, true)] st0.
Proof.
  intros st0.
  destruct (scroll_reveals_fire_once [4; 5; 6] ∅ 5)
    as (H1 & _ & H3 & H4 & _ & H6 & _).
  - set_solver.
  - split; [exact H1|]. split; [exact H3|]. split; [exact H4|]. apply H6.
Defined.

(** ** Scroll progress *)

(** C3. The width of the progress bar is
    [scrollTop / (scrollHeight - viewportHeight) * 100] percent when the
    denominator is positive and 0 when it is not; with a scroll height of
    2000, a viewport of 800 and a scroll position of 600 it is 50. *)
Theorem scroll_progress_width (w : window) (sp : ScrollProgress) :
  ((0 < scrollHeight w - innerHeight w)%Q →
   width_percent (updateProgress w sp)
   = (scrollY w / (scrollHeight w - innerHeight w) * 100)%Q) ∧
  ((scrollHeight w - innerHeight w <= 0)%Q →
   width_percent (updateProgress w sp) = 0%Q) ∧
  (width_percent (updateProgress (mkWindow 600 800 2000) sp) == 50)%Q.
Proof.
  unfold updateProgress. cbn [width_percent]. split; [|split].
  - intros Hpos.
    destruct (Qle_bool (scrollHeight w - innerHeight w) 0) eqn:E; [|done].
    apply Qle_bool_iff in E. lra.
  - intros Hle. apply Qle_bool_iff in Hle. by rewrite Hle.
  - reflexivity.
Qed.

(** The theorem at the specification's window and at a page shorter than
    the viewport. *)
Lemma scroll_progress_width_witness :
  width_percent (updateProgress (mkWindow 600 800 2000) (mkScrollProgress 0))
    = (600 / (2000 - 800) * 100)%Q ∧
  width_percent (updateProgress (mkWindow 0 800 500) (mkScrollProgress 0))
    = 0%Q.
Proof.
  split.
  - destruct (scroll_progress_width (mkWindow 600 800 2000) (mkScrollProgress 0))
      as (H & _). apply H. vm_compute. reflexivity.
  - destruct (scroll_progress_width (mkWindow 0 800 500) (mkScrollProgress 0))
      as (_ & H & _). apply H. vm_compute. discriminate.
Defined.

(** ** Parallax speed *)

(** Without the attribute, or with an empty one, the speed is 0.5. *)
Lemma updateLayer_default (y : Q) (l : layer) :
  dataset_speed l = None ∨ dataset_speed l = Some EmptyString →
  translateY (updateLayer y l) = Some (Fin (- (y * 0.5))).
Proof. unfold updateLayer, read_speed. by intros [-> | ->]. Qed.

(** With an attribute that converts to a number, that number is the
    speed. *)
Lemma updateLayer_numeric (y : Q) (l : layer) (s : string) (q : Q) :
  dataset_speed l = Some s → truthy s = true → StringToNumber s = Fin q →
  translateY (updateLayer y l) = Some (Fin (- (y * q))).
Proof.
  intros Hs Ht Hq. unfold updateLayer, read_speed.
  rewrite Hs, Ht. cbn [ToNumber]. by rewrite Hq.
Qed.

Example updateLayer_speed_attribute :
  translateY (updateLayer 100 (mkLayer (Some "0.3") None))
  = Some (Fin (- (100 * 0.3))).
Proof. reflexivity. Qed.

(** C7. The speed attribute is not checked for being a number: with
    [data-speed="fast"] and the page scrolled to 100, the string itself is
    taken as the speed, the product is not a number, and the offset
    assigned is [NaN] instead of the [-(100 * 0.5)] of the fallback. *)
Theorem parallax_speed_not_validated :
  let l := mkLayer (Some "fast") None in
  read_speed l = SpeedString "fast" ∧
  ToNumber (read_speed l) = NaN ∧
  translateY (updateLayer 100 l) = Some NaN ∧
  translateY (updateLayer 100 l) ≠ Some (Fin (- (100 * 0.5))).
Proof. repeat split; try reflexivity. discriminate. Qed.

(** ** Reduced motion *)

Lemma run_static evs : ∀ pg,
  reveals pg = None → progress pg = None → parallax pg = None →
  frames_requested (run evs pg) = frames_requested pg ∧
  doc (run evs pg) = doc pg.
Proof.
  induction evs as [|ev evs IH]; intros pg Hr Hp Hx; [done|].
  unfold run in *. cbn [fold_left].
  assert (reveals (handle ev pg) = None ∧ progress (handle ev pg) = None ∧
          parallax (handle ev pg) = None ∧
          frames_requested (handle ev pg) = frames_requested pg ∧
          doc (handle ev pg) = doc pg) as (Hr' & Hp' & Hx' & Hf' & Hd').
  { destruct ev; cbn; unfold onScroll, refresh_progress; cbn;
      rewrite ?Hr, ?Hp, ?Hx; cbn; rewrite ?Hr, ?Hp, ?Hx; done. }
  destruct (IH (handle ev pg) Hr' Hp' Hx') as [Hf Hd].
  by rewrite Hf, Hd.
Qed.

(** C6, as stated, fails: the main script builds its counters whatever the
    reduced-motion preference is, and a counter that comes into view
    requests an animation frame. *)
Lemma counter_ignores_reduced_motion :
  let pl := mkPlatform true true in
  let m := App.mkAppMarkup None [Counter.mkElement (Some "1000") None EmptyString] [] None in
  let a := App.ready_init pl m PageLoader.Interactive ∅ 0 in
  prefersReducedMotion pl = true ∧
  App.frames_requested (App.counter_intersects 0 0 [true] a) = 1 ∧
  App.frames_requested (App.counter_intersects 0 0 [true] a) ≠ 0.
Proof. repeat split; try reflexivity. discriminate. Qed.

(** C6, amended. When the reduced-motion preference is true at startup,
    the reveal script builds none of its components (scroll reveals, text
    reveal, scroll progress, parallax): every revealable and every
    text-reveal element carries the class [revealed] at once, and whatever
    scrolls, resizes, intersections and frames follow, this script requests
    no animation frame and changes no class. *)
Theorem reduced_motion_static (pl : platform) (m : markup) (w : window)
    (d : gmap nat (gset string)) (evs : list event) :
  prefersReducedMotion pl = true →
  let pg := on_ready pl m w d in
  (∀ e, e ∈ data_reveal m ∨ e ∈ text_reveal m →
     "revealed" ∈ classList (doc pg) e) ∧
  reveals pg = None ∧ progress pg = None ∧ parallax pg = None ∧
  text_wrapped pg = [] ∧ frames_requested pg = 0 ∧
  frames_requested (run evs pg) = 0 ∧
  doc (run evs pg) = doc pg.
Proof.
  intros Hprm pg. subst pg. unfold on_ready. rewrite Hprm. cbn [negb].
  split; [|repeat split].
  - intros e He. cbn. rewrite !elem_of_add_all. naive_solver.
  - by apply run_static.
  - by apply run_static.
Qed.

(** The theorem at a page with two revealable elements, one text-reveal
    element and a parallax layer. *)
Lemma reduced_motion_static_witness :
  let pg := on_ready (mkPlatform true true)
              (mkMarkup [1; 2] [3] [mkLayer None None])
              (mkWindow 0 800 2000) ∅ in
  (∀ e, e ∈ [1; 2] ∨ e ∈ [3] → "revealed" ∈ classList (doc pg) e) ∧
  frames_requested
    (run [Scroll 100; Frame; Intersect [(1, true)]; Scroll 300; Frame] pg) = 0.
Proof.
  intros pg.
  destruct (reduced_motion_static (mkPlatform true true)
              (mkMarkup [1; 2] [3] [mkLayer None None])
              (mkWindow 0 800 2000) ∅
              [Scroll 100; Frame; Intersect [(1, true)]; Scroll 300; Frame])
    as (H1 & _ & _ & _ & _ & _ & H7 & _).
  - reflexivity.
  - split; [exact H1|exact H7].
Defined.

End RevealFacts.

(** ** The carousel over time *)

Module CarouselRunFacts.
Import JsString Carousel CarouselRun CarouselFacts.

Lemma imap_by_index {A B} (f : nat → bool) (l : list A) (l' : list B) :
  length l = length l' →
  imap (fun j _ => f j) l = imap (fun j _ => f j) l'.
Proof.
  intros Hlen. apply list_eq. intros j. rewrite !list_lookup_imap.
  destruct (l !! j) as [x|] eqn:E, (l' !! j) as [y|] eqn:E'; try done.
  - apply lookup_lt_Some in E. apply lookup_ge_None in E'. lia.
  - apply lookup_ge_None in E. apply lookup_lt_Some in E'. lia.
Qed.

Lemma goToSlide_only_active k s :
  dots (goToSlide (Some k) s) = only_active (length (dots s)) k.
Proof.
  unfold goToSlide, only_active. cbn.
  apply (imap_by_index (fun j => j =? k)). by rewrite length_replicate.
Qed.

Lemma only_active_length n i : length (only_active n i) = n.
Proof. unfold only_active. by rewrite length_imap, length_replicate. Qed.

Lemma auto_advance_goToSlide s i :
  0 < slides s → currentSlide s = Some i →
  auto_advance s = goToSlide (Some ((i + 1) mod slides s)) s.
Proof.
  intros Hn Hi. unfold auto_advance, goToSlide, next_index. cbn.
  rewrite Hi. destruct (slides s =? 0) eqn:E; [|done].
  apply Nat.eqb_eq in E. lia.
Qed.

Lemma goToSlide_goToSlide j k s :
  goToSlide (Some k) (goToSlide (Some j) s) = goToSlide (Some k) s.
Proof.
  unfold goToSlide. cbn. f_equal.
  apply (imap_by_index (fun i => i =? k)). by rewrite length_imap.
Qed.

Lemma advance_times_jump (s : carousel) (i k : nat) :
  0 < slides s → currentSlide s = Some i →
  advance_times (S k) s = goToSlide (Some ((i + S k) mod slides s)) s.
Proof.
  intros Hn Hi. induction k as [|k IH].
  - by apply auto_advance_goToSlide.
  - change (advance_times (S (S k)) s)
      with (auto_advance (advance_times (S k) s)).
    rewrite IH.
    rewrite (auto_advance_goToSlide _ ((i + S k) mod slides s)) by done.
    rewrite goToSlide_goToSlide. cbn [slides goToSlide].
    rewrite Nat.Div0.add_mod_idemp_l. do 3 f_equal. lia.
Qed.

(** Ticks compose into one jump: [k+1] ticks from index [i] leave the
    carousel exactly as a click on the dot of slide [(i+k+1) mod n]
    would. *)
Theorem ticks_are_one_jump (s : carousel) (i k : nat) :
  0 < slides s → currentSlide s = Some i →
  advance_times (S k) s = goToSlide (Some ((i + S k) mod slides s)) s.
Proof. apply advance_times_jump. Qed.

Lemma ticks_are_one_jump_witness :
  advance_times 3 (initTestimonialCarousel 4 EmptyString)
  = goToSlide (Some 3) (initTestimonialCarousel 4 EmptyString).
Proof.
  apply (ticks_are_one_jump (initTestimonialCarousel 4 EmptyString) 0 2).
  - vm_compute. lia.
  - reflexivity.
Defined.

(** A full round of ticks brings the carousel back to the slide it
    shows: the index, the transform of that index and the active dot. *)
Theorem full_round_returns (s : carousel) (i : nat) :
  0 < slides s → i < slides s → currentSlide s = Some i →
  advance_times (slides s) s = goToSlide (Some i) s.
Proof.
  intros Hn Hlt Hi. destruct (slides s) as [|n] eqn:E; [lia|].
  rewrite (advance_times_jump s i n) by (rewrite ?E; done || lia).
  rewrite E. do 2 f_equal.
  replace (i + S n) with (i + 1 * S n) by lia.
  rewrite Nat.Div0.mod_add. by apply Nat.mod_small.
Qed.

Lemma full_round_returns_witness :
  let s := goToSlide (Some 2) (initTestimonialCarousel 4 EmptyString) in
  advance_times 4 s = goToSlide (Some 2) s.
Proof.
  intros s. apply (full_round_returns s 2).
  - vm_compute. lia.
  - vm_compute. lia.
  - reflexivity.
Defined.



Lemma act_consistent n a s :
  0 < n → possible n a → consistent n s →
  consistent n (act a s) ∧
  ∃ i, currentSlide (act a s) = Some i ∧
       transform (act a s) = "translateX(-" +:+ nat_to_string (i * 100) +:+ "%)".
Proof.
  intros Hn Hp (Hs & i & Hi & Hc & Hd).
  assert (∀ k, k < n →
    consistent n (goToSlide (Some k) s) ∧
    ∃ i, currentSlide (goToSlide (Some k) s) = Some i ∧
         transform (goToSlide (Some k) s)
         = "translateX(-" +:+ nat_to_string (i * 100) +:+ "%)") as Hgo.
  { intros k Hk. split; [|by exists k].
    split; [done|]. exists k. split; [done|]. split; [done|].
    rewrite goToSlide_only_active, Hd, only_active_length. done. }
  destruct a as [|k]; cbn [act].
  - rewrite (auto_advance_goToSlide s i) by (rewrite ?Hs; done).
    apply Hgo. rewrite Hs. by apply Nat.mod_upper_bound, Nat.neq_0_lt_0.
  - by apply Hgo.
Qed.

(** Whatever ticks and dot clicks follow the set-up, a slide within range
    is current, exactly its dot is active, and after the first of them
    the track's transform is the one of the current slide. *)
Theorem carousel_stays_consistent (n : nat) (markup_transform : string)
    (acts : list action) :
  0 < n → Forall (possible n) acts →
  let s := run acts (initTestimonialCarousel n markup_transform) in
  slides s = n ∧
  ∃ i, i < n ∧ currentSlide s = Some i ∧ dots s = only_active n i ∧
       (acts ≠ [] →
        transform s = "translateX(-" +:+ nat_to_string (i * 100) +:+ "%)").
Proof.
  intros Hn Hall.
  assert (consistent n (initTestimonialCarousel n markup_transform)) as H0.
  { split; [done|]. exists 0. by repeat split. }
  revert H0. generalize (initTestimonialCarousel n markup_transform) as s0.
  induction acts as [|a acts IH] using rev_ind; intros s0 H0.
  - cbn. destruct H0 as (Hs & i & Hi & Hc & Hd).
    split; [done|]. exists i. by repeat split.
  - apply Forall_app in Hall as [Hall Ha]. apply Forall_inv in Ha.
    cbn zeta. unfold run. rewrite fold_left_app. cbn [fold_left].
    specialize (IH Hall s0 H0). cbn zeta in IH. fold (run acts s0).
    assert (consistent n (run acts s0)) as Hc.
    { destruct IH as (Hs & i & Hi & Hc & Hd & _). split; [done|]. by exists i. }
    destruct (act_consistent n a (run acts s0) Hn Ha Hc)
      as [(Hs & i & Hi & Hcur & Hd) (i' & Hcur' & Ht)].
    split; [done|]. exists i. repeat split; try done.
    intros _. rewrite Hcur in Hcur'. by injection Hcur' as <-.
Qed.

Lemma carousel_stays_consistent_witness :
  let s := run [Tick; DotClick 3; Tick; Tick]
             (initTestimonialCarousel 4 EmptyString) in
  slides s = 4 ∧
  ∃ i, i < 4 ∧ currentSlide s = Some i ∧ dots s = only_active 4 i ∧
       ([Tick; DotClick 3; Tick; Tick] ≠ [] →
        transform s = "translateX(-" +:+ nat_to_string (i * 100) +:+ "%)").
Proof.
  apply (carousel_stays_consistent 4 EmptyString [Tick; DotClick 3; Tick; Tick]).
  - lia.
  - repeat constructor; cbn; lia.
Defined.

End CarouselRunFacts.

(** ** The reveal script over a run of events *)

Module RevealRunFacts.
Import Dom DomFacts JsString RevealScript RevealRun RevealFacts.

(** *** Scroll progress *)

(** On a scrollable page, between the top and the bottom the bar is
    between 0 and 100 percent wide, 0 at the top, 100 at the bottom, and
    it never shrinks when the page is scrolled further down. *)
Theorem progress_within_bounds (w : window) (y : Q) (sp : ScrollProgress) :
  scrollable w →
  (0 <= scrollY w)%Q → (scrollY w <= y)%Q →
  (y <= scrollHeight w - innerHeight w)%Q →
  (0 <= width_percent (updateProgress w sp))%Q ∧
  (width_percent (updateProgress w sp)
   <= width_percent (updateProgress (scrolled_to y w) sp))%Q ∧
  (width_percent (updateProgress (scrolled_to y w) sp) <= 100)%Q ∧
  (width_percent (updateProgress (scrolled_to 0 w) sp) == 0)%Q ∧
  (width_percent
     (updateProgress (scrolled_to (scrollHeight w - innerHeight w) w) sp)
   == 100)%Q.
Proof.
  unfold scrollable. intros Hs H0 Hy Hmax.
  assert (Qle_bool (scrollHeight w - innerHeight w) 0 = false) as Hb.
  { destruct (Qle_bool _ 0) eqn:E; [|done]. apply Qle_bool_iff in E. lra. }
  unfold updateProgress, scrolled_to. cbn. rewrite Hb. cbn.
  set (h := (scrollHeight w - innerHeight w)%Q) in *.
  assert (0 < / h)%Q as Hinv by (by apply Qinv_lt_0_compat).
  assert (h * / h == 1)%Q as Hone by (apply Qmult_inv_r; lra).
  unfold Qdiv. repeat split.
  - assert (0 <= scrollY w * / h)%Q by (apply Qmult_le_0_compat; lra). lra.
  - assert (scrollY w * / h <= y * / h)%Q
      by (apply Qmult_le_compat_r; lra). lra.
  - assert (y * / h <= h * / h)%Q by (apply Qmult_le_compat_r; lra). lra.
  - rewrite Hone. ring.
Qed.

Lemma progress_within_bounds_witness :
  let w := mkWindow 300 800 2000 in
  (0 <= width_percent (updateProgress w (mkScrollProgress 0)))%Q ∧
  (width_percent (updateProgress w (mkScrollProgress 0))
   <= width_percent (updateProgress (scrolled_to 900 w) (mkScrollProgress 0)))%Q ∧
  (width_percent (updateProgress (scrolled_to 900 w) (mkScrollProgress 0))
   <= 100)%Q.
Proof.
  intros w.
  destruct (progress_within_bounds w 900 (mkScrollProgress 0))
    as (H1 & H2 & H3 & _).
  - vm_compute. reflexivity.
  - vm_compute. discriminate.
  - vm_compute. discriminate.
  - vm_compute. discriminate.
  - split; [exact H1|]. split; [exact H2|exact H3].
Defined.



(** *** The page over a run of events *)

Lemma run_app evs1 evs2 pg : run (evs1 ++ evs2) pg = run evs2 (run evs1 pg).
Proof. unfold run. apply fold_left_app. Qed.

Lemma run_cons ev evs pg : run (ev :: evs) pg = run evs (handle ev pg).
Proof. done. Qed.

(** An invariant of [handle] that holds at the start holds after a run. *)
Lemma run_invariant (P : page → Prop) evs : ∀ pg,
  (∀ ev pg, P pg → P (handle ev pg)) → P pg → P (run evs pg).
Proof.
  induction evs as [|ev evs IH]; intros pg Hstep H0; [done|].
  rewrite run_cons. apply IH; [done|]. by apply Hstep.
Qed.

Lemma handle_intersect_cases entries pg :
  handle (Intersect entries) pg = pg ∨
  ∃ sr, reveals pg = Some sr ∧ observer sr ≠ None ∧
    handle (Intersect entries) pg =
    mkPage (callback entries (sr, doc pg)).2 (win pg)
      (Some (callback entries (sr, doc pg)).1) (text_wrapped pg)
      (progress pg) (parallax pg) (frames_requested pg).
Proof.
  cbn. destruct (reveals pg) as [sr|]; [|by left].
  destruct (observer sr) eqn:E; [|by left].
  right. exists sr. split; [done|]. split; [by rewrite E|].
  by destruct (callback entries (sr, doc pg)).
Qed.




Lemma handle_headroom ev pg :
  frames_requested (handle ev pg) + headroom (handle ev pg)
  ≤ frames_requested pg + headroom pg + (if is_frame ev then 1 else 0).
Proof.
  destruct ev as [y|h|entries|].
  - cbn. unfold onScroll, headroom, refresh_progress, set_win. cbn.
    destruct (parallax pg) as [p|] eqn:E; cbn; rewrite ?E; [|lia].
    destruct (listening p), (ticking p) eqn:Et; cbn; rewrite ?E, ?Et; lia.
  - cbn. unfold headroom. cbn. lia.
  - destruct (handle_intersect_cases entries pg) as [->|(sr & _ & _ & ->)];
      unfold headroom; cbn; lia.
  - cbn. unfold headroom.
    destruct (parallax pg) as [p|] eqn:E; cbn; rewrite ?E; [|lia].
    destruct (ticking p) eqn:Et; cbn; rewrite ?E, ?Et; lia.
Qed.

Lemma count_frames_snoc evs ev :
  count_frames (evs ++ [ev])
  = count_frames evs + (if is_frame ev then 1 else 0).
Proof.
  unfold count_frames. rewrite foldr_app. cbn.
  generalize (if is_frame ev then 1 else 0) as k. intros k.
  induction evs as [|e evs IH]; cbn; [by destruct (is_frame ev)|].
  destruct (is_frame e); lia.
Qed.

Lemma run_headroom evs : ∀ pg,
  frames_requested (run evs pg) + headroom (run evs pg)
  ≤ frames_requested pg + headroom pg + count_frames evs.
Proof.
  induction evs as [|ev evs IH] using rev_ind; intros pg; [cbn; lia|].
  rewrite run_app. cbn [run fold_left].
  pose proof (handle_headroom ev (run evs pg)) as Hh.
  specialize (IH pg).
  rewrite count_frames_snoc. unfold run in *. lia.
Qed.

(** Scroll events are coalesced: however many of them arrive, the script
    never has requested more animation frames than frames have come, plus
    the one in flight. *)
Theorem frame_requests_coalesced (pl : platform) (m : markup) (w : window)
    (d : gmap nat (gset string)) (evs : list event) :
  frames_requested (run evs (on_ready pl m w d)) ≤ 1 + count_frames evs.
Proof.
  pose proof (run_headroom evs (on_ready pl m w d)) as H.
  assert (frames_requested (on_ready pl m w d) = 0
          ∧ headroom (on_ready pl m w d) ≤ 1) as [H0 H1].
  { unfold on_ready, headroom.
    destruct (prefersReducedMotion pl); cbn; [split; [done|lia]|].
    destruct (newScrollReveals _ _ _). cbn. split; [done|lia]. }
  lia.
Qed.

(** With no parallax layer on the page the script requests no animation
    frame at all. *)
Theorem no_layers_no_frames (pl : platform) (m : markup) (w : window)
    (d : gmap nat (gset string)) (evs : list event) :
  parallax_layers m = [] →
  frames_requested (run evs (on_ready pl m w d)) = 0.
Proof.
  intros Hno.
  refine (proj1 (run_invariant
    (fun pg => frames_requested pg = 0 ∧
               ∀ p, parallax pg = Some p →
                    listening p = false ∧ ticking p = false)
    evs (on_ready pl m w d) _ _)).
  - intros ev pg [Hf Hp]. destruct ev as [y|h|entries|].
    + cbn. unfold onScroll, refresh_progress, set_win. cbn.
      destruct (parallax pg) as [p|] eqn:E; cbn; rewrite ?E; [|done].
      destruct (Hp p eq_refl) as [Hl Ht]. rewrite Hl. cbn. rewrite ?E.
      split; [done|]. by intros p0 [= <-].
    + done.
    + destruct (handle_intersect_cases entries pg) as [->|(sr & _ & _ & ->)];
        done.
    + cbn. destruct (parallax pg) as [p|] eqn:E; rewrite ?E; [|done].
      destruct (Hp p eq_refl) as [Hl Ht]. rewrite Ht, ?E.
      split; [done|]. by intros p0 [= <-].
  - unfold on_ready. destruct (prefersReducedMotion pl); cbn; [done|].
    destruct (newScrollReveals _ _ _). cbn. rewrite Hno.
    split; [done|]. by intros p [= <-].
Qed.

Lemma no_layers_no_frames_witness :
  frames_requested
    (run [Scroll 10; Scroll 20; Frame; Scroll 30]
       (on_ready (mkPlatform true false) (mkMarkup [1] [2] [])
          (mkWindow 0 800 2000) ∅)) = 0.
Proof.
  apply (no_layers_no_frames (mkPlatform true false) (mkMarkup [1] [2] [])).
  reflexivity.
Defined.

Lemma run_scrolls ys : ∀ pg p y,
  parallax pg = Some p → listening p = true → last ys = Some y →
  parallax (run (Scroll <$> ys) pg)
    = Some (mkParallaxEffect (layers p) true true) ∧
  frames_requested (run (Scroll <$> ys) pg)
    = frames_requested pg + (if ticking p then 0 else 1) ∧
  scrollY (win (run (Scroll <$> ys) pg)) = y.
Proof.
  induction ys as [|y0 ys IH]; intros pg p y Hp Hl Hlast; [done|].
  rewrite fmap_cons, run_cons.
  set (pg1 := handle (Scroll y0) pg).
  assert (parallax pg1 = Some (mkParallaxEffect (layers p) true true) ∧
          frames_requested pg1
            = frames_requested pg + (if ticking p then 0 else 1) ∧
          scrollY (win pg1) = y0) as (Hp1 & Hf1 & Hy1).
  { subst pg1. cbn. unfold onScroll. cbn. rewrite Hp, Hl. cbn.
    destruct p as [ls t l]. cbn in *. subst l.
    destruct t; cbn; rewrite ?Hp; repeat split; try done; lia. }
  destruct ys as [|y1 ys].
  - cbn in Hlast. injection Hlast as <-. done.
  - rewrite last_cons_cons in Hlast.
    destruct (IH pg1 _ y Hp1 eq_refl Hlast) as (Hp2 & Hf2 & Hy2).
    rewrite Hp2, Hf2, Hf1, Hy2. cbn [ticking layers].
    split; [done|]. split; [lia|done].
Qed.

(** A burst of scroll events costs one animation frame, and that frame
    moves every layer to the offset of the last scroll position. *)
Theorem scroll_burst_one_frame (pl : platform) (m : markup) (w : window)
    (d : gmap nat (gset string)) (ys : list Q) (y : Q) :
  prefersReducedMotion pl = false → parallax_layers m ≠ [] →
  last ys = Some y →
  let pg := run ((Scroll <$> ys) ++ [Frame]) (on_ready pl m w d) in
  frames_requested pg = 1 ∧
  parallax pg
  = Some (mkParallaxEffect (updateLayer y <$> parallax_layers m) false true).
Proof.
  intros Hprm Hls Hlast. cbn zeta. rewrite run_app.
  set (pg0 := on_ready pl m w d).
  assert (parallax pg0 = Some (mkParallaxEffect (parallax_layers m) false true)
          ∧ frames_requested pg0 = 0) as [Hp0 Hf0].
  { subst pg0. unfold on_ready. rewrite Hprm. cbn [negb].
    destruct (newScrollReveals _ _ _). cbn. unfold newParallaxEffect.
    destruct (parallax_layers m); [done|]. done. }
  destruct (run_scrolls ys pg0 _ y Hp0 eq_refl Hlast) as (Hp & Hf & Hy).
  cbn in Hp, Hf. cbn [run fold_left handle]. rewrite Hp. cbn.
  rewrite Hf, Hf0, Hy. done.
Qed.

Lemma scroll_burst_one_frame_witness :
  let m := mkMarkup [] [] [mkLayer None None; mkLayer (Some "0.2") None] in
  let pg := run ((Scroll <$> [10; 250; 400]%Q) ++ [Frame])
              (on_ready (mkPlatform true false) m (mkWindow 0 800 2000) ∅) in
  frames_requested pg = 1 ∧
  parallax pg
  = Some (mkParallaxEffect (updateLayer 400 <$> parallax_layers m) false true).
Proof.
  intros m.
  apply (scroll_burst_one_frame (mkPlatform true false) m (mkWindow 0 800 2000)
           ∅ [10; 250; 400]%Q 400).
  - reflexivity.
  - discriminate.
  - reflexivity.
Defined.

(** *** Scroll reveals over a run of events *)

Lemma handle_keeps_doc ev pg :
  (∀ entries, ev ≠ Intersect entries) →
  doc (handle ev pg) = doc pg ∧ reveals (handle ev pg) = reveals pg.
Proof.
  intros Hne. destruct ev as [y|h|entries|].
  - cbn. unfold onScroll. cbn. destruct (parallax pg) as [p|]; [|done].
    by destruct (listening p && negb (ticking p)).
  - done.
  - by destruct (Hne entries).
  - cbn. destruct (parallax pg) as [p|]; [|done]. by destruct (ticking p).
Qed.

(** An event other than an intersection report leaves class lists and
    observer alone. *)
Ltac keeps_doc pg :=
  match goal with
  | |- context [handle ?ev pg] =>
      let H1 := fresh in let H2 := fresh in
      destruct (handle_keeps_doc ev pg) as [H1 H2];
      [intros ?; discriminate | rewrite H1, ?H2]
  end.

Lemma callback_keeps_observed entries sr d e :
  observed e sr → (e, true) ∉ entries →
  observed e (callback entries (sr, d)).1.
Proof.
  intros (o & Ho & Hin) Hnot. rewrite callback_spec. cbn.
  exists (o ∖ list_to_set (intersecting entries)). rewrite Ho. split; [done|].
  apply elem_of_difference. split; [done|].
  rewrite elem_of_list_to_set, elem_of_intersecting. done.
Qed.

Lemma callback_reveals entries sr d e :
  "revealed" ∈ classList (callback entries (sr, d)).2 e ↔
  (e, true) ∈ entries ∨ "revealed" ∈ classList d e.
Proof.
  rewrite callback_spec. cbn. rewrite elem_of_add_all, elem_of_intersecting.
  naive_solver.
Qed.

(** No marked element is ever lost: after every event each of them either
    carries the class [revealed] or is still watched by the observer,
    whether the platform has intersection observation or not and whatever
    the motion preference is. *)
Theorem marked_revealed_or_watched (pl : platform) (m : markup) (w : window)
    (d : gmap nat (gset string)) (evs : list event) (e : elem) :
  e ∈ data_reveal m →
  let pg := run evs (on_ready pl m w d) in
  "revealed" ∈ classList (doc pg) e ∨
  ∃ sr, reveals pg = Some sr ∧ observed e sr.
Proof.
  intros He. cbn zeta.
  apply (run_invariant (fun pg =>
    "revealed" ∈ classList (doc pg) e ∨
    ∃ sr, reveals pg = Some sr ∧ observed e sr)).
  - intros ev pg Hinv.
    destruct ev as [y|h|entries|]; try by keeps_doc pg.
    destruct (handle_intersect_cases entries pg)
      as [->|(sr & Hsr & _ & ->)]; [done|]. cbn.
    destruct Hinv as [Hr|(sr' & Hsr' & Hobs)].
    + left. apply callback_reveals. by right.
    + rewrite Hsr in Hsr'. injection Hsr' as <-.
      destruct (decide ((e, true) ∈ entries)) as [Hin|Hnot].
      * left. apply callback_reveals. by left.
      * right. eexists. split; [done|]. by apply callback_keeps_observed.
  - unfold on_ready. destruct (prefersReducedMotion pl); cbn [negb].
    + left. cbn. rewrite !elem_of_add_all. naive_solver.
    + unfold newScrollReveals, init.
      destruct (hasIntersectionObserver pl); cbn.
      * right. eexists. split; [done|].
        unfold observeElements, createObserver. cbn.
        eexists. split; [apply observeElements_observer|].
        apply elem_of_union_l, elem_of_list_to_set, He.
      * left. unfold revealAll. cbn. apply elem_of_add_all. by left.
Qed.

Lemma marked_revealed_or_watched_witness :
  let pg := run [Scroll 40; Intersect [(1, true); (2, false)]; Frame]
              (on_ready (mkPlatform true false) (mkMarkup [1; 2] [] [])
                 (mkWindow 0 800 2000) ∅) in
  "revealed" ∈ classList (doc pg) 2 ∨
  ∃ sr, reveals pg = Some sr ∧ observed 2 sr.
Proof.
  apply (marked_revealed_or_watched (mkPlatform true false)
           (mkMarkup [1; 2] [] []) (mkWindow 0 800 2000) ∅
           [Scroll 40; Intersect [(1, true); (2, false)]; Frame] 2).
  cbn. set_solver.
Defined.



Lemma add_all_lookup_eq c els : ∀ (d : gmap nat (gset string)) e,
  fold_left (fun d el => classList_add c el d) els d !! e
  = if decide (e ∈ els) then Some ({[c]} ∪ classList d e) else d !! e.
Proof.
  induction els as [|a els IH]; intros d e; cbn [fold_left].
  - rewrite decide_False; [done|]. apply not_elem_of_nil.
  - rewrite IH. destruct (decide (a = e)) as [->|Hne].
    + rewrite (decide_True (P := e ∈ e :: els)) by left.
      rewrite classList_add_eq. unfold classList_add.
      rewrite lookup_insert_eq. case_decide; f_equal; set_solver.
    + rewrite classList_add_ne by done. unfold classList_add.
      rewrite lookup_insert_ne by done.
      destruct (decide (e ∈ els)) as [Hin|Hnot].
      * rewrite decide_True; [done|]. by right.
      * rewrite decide_False; [done|].
        intros [->|?]%elem_of_cons; done.
Qed.

(** What an intersection callback does depends only on which elements it
    reports as intersecting: neither the order of the entries, nor
    repeated entries, nor entries that do not intersect matter. *)
Theorem callback_order_free (es1 es2 : list entry)
    (st : ScrollReveals * gmap nat (gset string)) :
  (∀ e, (e, true) ∈ es1 ↔ (e, true) ∈ es2) →
  callback es1 st = callback es2 st.
Proof.
  intros Hsame. destruct st as [sr d]. rewrite !callback_spec.
  assert (∀ e, e ∈ intersecting es1 ↔ e ∈ intersecting es2) as Hint.
  { intros e. by rewrite !elem_of_intersecting. }
  f_equal.
  - f_equal. destruct (observer sr) as [o|]; cbn; [|done]. f_equal.
    apply set_eq. intros e. rewrite !elem_of_difference, !elem_of_list_to_set.
    by rewrite Hint.
  - apply map_eq. intros e. rewrite !add_all_lookup_eq.
    destruct (decide (e ∈ intersecting es1)) as [H1|H1].
    + rewrite !decide_True; [done|by apply Hint|done].
    + rewrite !decide_False; [done|by rewrite <- Hint|done].
Qed.

Lemma callback_order_free_witness :
  callback [(1, true); (2, false); (3, true); (1, true)]
    (newScrollReveals true [1; 2; 3] ∅)
  = callback [(3, true); (1, true)] (newScrollReveals true [1; 2; 3] ∅).
Proof.
  apply callback_order_free. intros e.
  rewrite !elem_of_cons, !elem_of_nil. naive_solver.
Defined.

(** [observe()] depends on the observer: without intersection observation
    it does nothing, so an element added after the start is neither
    watched nor revealed by the fallback; with it, the element is watched
    and revealed by its first intersection like the initial ones. *)
Theorem observe_needs_observer (marked : list elem)
    (d : gmap nat (gset string)) (el : elem) :
  el ∉ marked →
  let fallback := newScrollReveals false marked d in
  let st := newScrollReveals true marked d in
  observe el fallback.1 = fallback.1 ∧
  ¬ observed el (observe el fallback.1) ∧
  ("revealed" ∈ classList fallback.2 el ↔ "revealed" ∈ classList d el) ∧
  ¬ observed el st.1 ∧
  observed el (observe el st.1) ∧
  ("revealed" ∈ classList (callback [(el, true)] (observe el st.1, st.2)).2 el) ∧
  ¬ observed el (callback [(el, true)] (observe el st.1, st.2)).1.
Proof.
  intros Hnot. cbn zeta.
  unfold newScrollReveals, init, revealAll, observeElements, createObserver.
  cbn -[callback].
  set (sr0 := fold_left (fun sr el => observer_observe el sr) marked
                (mkScrollReveals marked (Some ∅))).
  assert (observer sr0 = Some (list_to_set marked ∪ ∅)) as Hobs
    by apply observeElements_observer.
  assert (observer (observe el sr0)
          = Some ({[el]} ∪ (list_to_set marked ∪ ∅))) as Hobs'.
  { unfold observe. rewrite Hobs. unfold observer_observe. cbn.
    by rewrite Hobs. }
  split; [done|]. split; [by intros (o & Ho & _)|]. split.
  { rewrite elem_of_add_all. naive_solver. }
  split.
  { intros (o & Ho & Hin). rewrite Hobs in Ho. injection Ho as <-.
    apply elem_of_union in Hin as [Hin%elem_of_list_to_set|Hin]; [done|].
    by apply not_elem_of_empty in Hin. }
  split.
  { eexists. split; [exact Hobs'|]. set_solver. }
  split.
  - apply callback_reveals. left. left.
  - intros (o & Ho & Hin). rewrite callback_spec in Ho. cbn in Ho.
    rewrite Hobs' in Ho. cbn in Ho.
    injection Ho as <-. apply elem_of_difference in Hin as [_ Hin].
    apply Hin. set_solver.
Qed.

Lemma observe_needs_observer_witness :
  let fallback := newScrollReveals false [1; 2] ∅ in
  observe 9 fallback.1 = fallback.1 ∧
  ¬ observed 9 (observe 9 fallback.1).
Proof.
  destruct (observe_needs_observer [1; 2] ∅ 9) as (H1 & H2 & _).
  - set_solver.
  - split; [exact H1|exact H2].
Defined.

End RevealRunFacts.

(** ** Counter animation: starting, stopping and odd inputs *)

Module CounterRunFacts.
Import JsString Counter CounterFacts.

Lemma on_intersect_cons now e es c :
  on_intersect now (e :: es) c
  = on_intersect now es (on_counter_entry now e c).
Proof. done. Qed.

Lemma on_intersect_started now es c :
  started c = true → on_intersect now es c = c.
Proof.
  intros Hs. induction es as [|e es IH]; [done|].
  rewrite on_intersect_cons. unfold on_counter_entry.
  rewrite Hs, andb_false_r. exact IH.
Qed.

(** The animation starts once: the first intersecting entry the observer
    reports starts it (start time taken, one frame requested, element
    unobserved), and no later report, in the same callback or in another
    one, changes the counter again. *)
Theorem animation_starts_once (now now' : Q) (es es' : list bool)
    (c : counter) :
  started c = false → In true es →
  let c1 := on_intersect now es c in
  started c1 = true ∧ observing c1 = false ∧ startTime c1 = now ∧
  frame_pending c1 = true ∧ frames_requested c1 = S (frames_requested c) ∧
  element_of c1 = element_of c ∧
  on_intersect now' es' c1 = c1.
Proof.
  intros Hs Hin. cbn zeta.
  assert (started (on_intersect now es c) = true ∧
          observing (on_intersect now es c) = false ∧
          startTime (on_intersect now es c) = now ∧
          frame_pending (on_intersect now es c) = true ∧
          frames_requested (on_intersect now es c) = S (frames_requested c) ∧
          element_of (on_intersect now es c) = element_of c) as H.
  { induction es as [|e es IH]; [done|].
    rewrite on_intersect_cons. destruct e.
    - unfold on_counter_entry. rewrite Hs. cbn [andb negb].
      rewrite on_intersect_started by done. by cbn.
    - unfold on_counter_entry. cbn [andb].
      apply IH. by destruct Hin. }
  destruct H as (H1 & H2 & H3 & H4 & H5 & H6).
  repeat split; try done. by apply on_intersect_started.
Qed.

Lemma animation_starts_once_witness :
  let c := newCounterAnimation (mkElement (Some "250") None "0") None in
  let c1 := on_intersect 40 [false; true; true] c in
  started c1 = true ∧ observing c1 = false ∧ startTime c1 = 40%Q ∧
  frame_pending c1 = true ∧ frames_requested c1 = 1 ∧
  element_of c1 = element_of c ∧
  on_intersect 90 [true] c1 = c1.
Proof.
  intros c.
  apply (animation_starts_once 40 90 [false; true; true] [true] c).
  - reflexivity.
  - right. left. reflexivity.
Defined.

Section Frames.
Variable toLocaleString : Z → string.

Lemma run_frames_idle frames c :
  frame_pending c = false → run_frames toLocaleString frames c = [].
Proof. intros Hp. destruct frames; cbn; by rewrite ?Hp. Qed.

Lemma update_frames_requested t c :
  frames_requested (update toLocaleString t c)
  = frames_requested c + (if Qle_bool 1 (progress_at c t) then 0 else 1).
Proof.
  unfold update, progress_at.
  destruct (Qle_bool 1 _); cbn [negb]; cbn -[Qmin Qfloor Qpower]; lia.
Qed.

Lemma update_done_text t c :
  Qle_bool 1 (progress_at c t) = true →
  textContent (element_of (update toLocaleString t c))
  = toLocaleString (target c)
    +:+ default EmptyString (dataset_suffix (element_of c)).
Proof.
  intros Hd. rewrite update_text. unfold shown_of, spec_text.
  unfold progress_at in Hd. by rewrite Hd.
Qed.

Lemma animation_finishes frames : ∀ c more,
  (0 < duration c)%Q → frame_pending c = true →
  Exists (fun t => duration c <= t - startTime c)%Q frames →
  ∃ c', last (run_frames toLocaleString frames c) = Some c' ∧
    frame_pending c' = false ∧
    textContent (element_of c')
    = toLocaleString (target c)
      +:+ default EmptyString (dataset_suffix (element_of c)) ∧
    run_frames toLocaleString (frames ++ more) c
    = run_frames toLocaleString frames c ∧
    frames_requested c' + 1
    = frames_requested c + length (run_frames toLocaleString frames c).
Proof.
  induction frames as [|t rest IH]; intros c more Hd Hp Hex.
  - by apply Exists_nil in Hex.
  - cbn [run_frames app]. rewrite Hp.
    pose proof (update_frame_pending toLocaleString t c) as Hu.
    pose proof (update_frames_requested t c) as Hr.
    pose proof (update_fields toLocaleString t c) as (Ht & Hdu & Hs & Hx).
    destruct (Qle_bool 1 (progress_at c t)) eqn:E; cbn [negb] in Hu.
    + exists (update toLocaleString t c).
      rewrite !run_frames_idle by done. cbn.
      repeat split; [done|by apply update_done_text|lia].
    + apply Exists_cons in Hex as [Hex|Hex].
      { rewrite (progress_at_done c t Hd Hex) in E. done. }
      destruct (IH (update toLocaleString t c) more) as (c' & Hl & Hf & Htx & Happ & Hn).
      * by rewrite Hdu.
      * done.
      * by rewrite Hdu, Hs.
      * exists c'. rewrite last_cons, Hl. rewrite Htx, Ht, Hx, Happ.
        repeat split; try done. cbn [length]. lia.
Qed.

End Frames.

(** The animation stops: once a frame comes at or after the full
    duration, the element shows the rendered target followed by the
    suffix, no callback is left pending, every frame requested has been
    consumed, and frames that come later change nothing. *)
Theorem animation_stops_at_target (toLocaleString : Z → string)
    (c : counter) (frames more : list Q) :
  (0 < duration c)%Q → frame_pending c = true →
  Exists (fun t => duration c <= t - startTime c)%Q frames →
  ∃ c', last (run_frames toLocaleString frames c) = Some c' ∧
    frame_pending c' = false ∧
    textContent (element_of c')
    = toLocaleString (target c)
      +:+ default EmptyString (dataset_suffix (element_of c)) ∧
    run_frames toLocaleString (frames ++ more) c
    = run_frames toLocaleString frames c ∧
    frames_requested c' + 1
    = frames_requested c + length (run_frames toLocaleString frames c).
Proof. intros. by apply animation_finishes. Qed.

Lemma animation_stops_at_target_witness :
  let el := mkElement (Some "1000") (Some "+") EmptyString in
  let c := animate 0 (newCounterAnimation el (Some 1000%Q)) in
  ∃ c', last (run_frames en_US [0; 500; 1200]%Q c) = Some c' ∧
    frame_pending c' = false ∧
    textContent (element_of c')
    = en_US (target c) +:+ default EmptyString (dataset_suffix (element_of c)) ∧
    run_frames en_US ([0; 500; 1200]%Q ++ [1216; 1232]%Q) c
    = run_frames en_US [0; 500; 1200]%Q c ∧
    frames_requested c' + 1
    = frames_requested c + length (run_frames en_US [0; 500; 1200]%Q c).
Proof.
  intros el c.
  apply (animation_stops_at_target en_US c [0; 500; 1200]%Q [1216; 1232]%Q).
  - vm_compute. reflexivity.
  - reflexivity.
  - apply Exists_cons_tl, Exists_cons_tl, Exists_cons_hd.
    vm_compute. discriminate.
Defined.

(** A missing target attribute, or one that does not start with a number,
    counts as 0: the counter shows 0 on every frame. *)
Theorem unreadable_target_shows_zero (el : element) (opt_duration : option Q)
    (now : Q) (frames : list Q) :
  parseInt (dataset_target el) = None →
  let c := animate now (newCounterAnimation el opt_duration) in
  target c = 0%Z ∧ Forall (fun v => v = 0%Z) (displayed_values frames c).
Proof.
  intros Hp. cbn zeta.
  assert (target (animate now (newCounterAnimation el opt_duration)) = 0%Z)
    as Ht.
  { cbn. unfold read_target. by rewrite Hp. }
  split; [done|]. apply List.Forall_forall.
  intros v (t & _ & ->)%displayed_values_In.
  rewrite displayed_value_formula, Ht.
  change 0%Z with (Qfloor 0) at 2. apply Qfloor_comp.
  change (inject_Z 0) with 0%Q. apply Qmult_0_l.
Qed.

Lemma unreadable_target_shows_zero_witness :
  let c := animate 0 (newCounterAnimation
                        (mkElement (Some "about 40") None EmptyString) None) in
  target c = 0%Z
  ∧ Forall (fun v => v = 0%Z) (displayed_values [0; 700; 2100]%Q c).
Proof.
  apply (unreadable_target_shows_zero
           (mkElement (Some "about 40") None EmptyString) None 0
           [0; 700; 2100]%Q).
  reflexivity.
Defined.

(** A negative duration is taken as given, and with it the animation
    never finishes: every frame from the start time on is consumed and
    leaves another one requested. *)
Theorem negative_duration_never_stops (toLocaleString : Z → string)
    (c : counter) (frames : list Q) :
  (duration c < 0)%Q → frame_pending c = true →
  Forall (fun t => startTime c <= t)%Q frames →
  length (run_frames toLocaleString frames c) = length frames ∧
  Forall (fun c' => frame_pending c' = true)
    (run_frames toLocaleString frames c).
Proof.
  revert c. induction frames as [|t rest IH]; intros c Hd Hp Hall.
  - split; [done|constructor].
  - apply Forall_cons in Hall as [Ht Hall].
    cbn [run_frames]. rewrite Hp.
    pose proof (update_frame_pending toLocaleString t c) as Hu.
    pose proof (update_fields toLocaleString t c) as (_ & Hdu & Hs & _).
    assert (Qle_bool 1 (progress_at c t) = false) as E.
    { destruct (Qle_bool 1 _) eqn:E; [|done].
      apply Qle_bool_iff in E. unfold progress_at in E.
      assert (Qmin ((t - startTime c) / duration c) 1
              <= (t - startTime c) / duration c)%Q as Hm
        by apply Q.le_min_l.
      assert ((t - startTime c) / duration c <= 0)%Q as Hn.
      { unfold Qdiv.
        assert (duration c * / duration c == 1)%Q as Hone
          by (apply Qmult_inv_r; lra).
        assert (/ duration c < 0)%Q as Hneg.
        { destruct (Qlt_le_dec (/ duration c) 0) as [|Hge]; [done|].
          exfalso. assert (duration c * / duration c <= 0)%Q by nra. lra. }
        nra. }
      lra. }
    rewrite E in Hu. cbn [negb] in Hu.
    destruct (IH (update toLocaleString t c)) as [Hlen Hf].
    + by rewrite Hdu.
    + done.
    + by rewrite Hs.
    + split; [cbn; by rewrite Hlen|by constructor].
Qed.

Lemma negative_duration_never_stops_witness :
  let c := animate 0 (newCounterAnimation
                        (mkElement (Some "10") None EmptyString)
                        (Some (-500)%Q)) in
  length (run_frames en_US [0; 500; 5000; 50000]%Q c) = 4 ∧
  Forall (fun c' => frame_pending c' = true)
    (run_frames en_US [0; 500; 5000; 50000]%Q c).
Proof.
  apply (negative_duration_never_stops en_US _ [0; 500; 5000; 50000]%Q).
  - vm_compute. reflexivity.
  - reflexivity.
  - repeat constructor; vm_compute; discriminate.
Defined.

End CounterRunFacts.

(** ** Form validation: flags, repeated submits and the success message *)

Module FormsRunFacts.
Import JsString Forms FormsFacts FormsRun.




Lemma checked_idemp c : checked (checked c) = checked c.
Proof.
  unfold checked at 1. rewrite checked_required, checked_value.
  unfold checked. destruct (required c); [|done].
  destruct (negb (truthy (trim (value c)))); unfold set_classes; cbn;
    f_equal; set_solver.
Qed.

Lemma missing_checked c : missing (checked c) = missing c.
Proof. unfold missing. by rewrite checked_required, checked_value. Qed.

Lemma existsb_missing_checked cs :
  existsb missing (map checked cs) = existsb missing cs.
Proof.
  induction cs as [|c cs IH]; [done|]. cbn. by rewrite missing_checked, IH.
Qed.

(** Submitting an invalid form again without changing a field changes
    nothing more: the same flags, the same values, nothing logged. *)
Theorem invalid_submit_idempotent (f : form) :
  existsb missing (controls f) = true →
  on_submit (form_after (on_submit f)) = on_submit f.
Proof.
  intros Hm. rewrite (on_submit_unfold f), Hm. cbn.
  rewrite on_submit_unfold. cbn. rewrite existsb_missing_checked, Hm.
  do 2 f_equal. rewrite <- list_fmap_compose. apply list_fmap_ext.
  intros i c _. apply checked_idemp.
Qed.

Lemma invalid_submit_idempotent_witness :
  let f := mkForm [mkControl (Some "mail") " " EmptyString true ∅] (Some "none") in
  on_submit (form_after (on_submit f)) = on_submit f.
Proof.
  apply (invalid_submit_idempotent
           (mkForm [mkControl (Some "mail") " " EmptyString true ∅] (Some "none"))).
  reflexivity.
Defined.

Lemma act_success_display a f :
  success_display (act a f) = success_display f ∨
  (success_display (act a f) = Some "block" ∧ success_display f ≠ None).
Proof.
  destruct a as [i v|]; cbn; [by left|].
  rewrite on_submit_unfold.
  destruct (existsb missing (controls f)); cbn; [by left|].
  destruct (success_display f); cbn; [by right|by left].
Qed.

(** The script shows the success message and never hides it again: once
    it is displayed it stays displayed through whatever is typed and
    submitted afterwards, also through submits that fail validation. *)
Theorem success_message_stays (f : form) (acts : list action) :
  success_display f = Some "block" →
  success_display (run acts f) = Some "block".
Proof.
  revert f. induction acts as [|a acts IH]; intros f Hs; [done|].
  unfold run in *. cbn [fold_left]. apply IH.
  destruct (act_success_display a f) as [->|[-> _]]; done.
Qed.

Lemma success_message_stays_witness :
  let f := form_after
             (on_submit (mkForm [mkControl (Some "mail") "a@b.c" EmptyString true ∅]
                           (Some "none"))) in
  success_display (run [Submit; Type_ 0 "x"; Submit] f) = Some "block".
Proof.
  intros f. apply (success_message_stays f [Submit; Type_ 0 "x"; Submit]).
  reflexivity.
Defined.



End FormsRunFacts.

(** ** FAQ accordion: what a click leaves alone *)

Module FaqMoreFacts.
Import Dom DomFacts Faq FaqFacts.

Lemma click_keeps faqItems has_question item d e c :
  c ≠ "open" ∨ e ∉ faqItems →
  c ∈ classList (click faqItems has_question item d) e ↔ c ∈ classList d e.
Proof.
  intros Hce. unfold click.
  destruct (bool_decide (item ∈ faqItems)) eqn:E; [|done].
  apply bool_decide_eq_true in E.
  destruct (has_question item); [|done]. cbn [andb].
  unfold on_click. rewrite toggle_spec.
  rewrite decide_False.
  - rewrite close_others_spec. naive_solver.
  - intros [-> ->]. naive_solver.
Qed.

(** Clicks change the class [open] of the FAQ items and nothing else:
    every other class of every element, and every class of an element
    that is not an FAQ item, is after any run of clicks as it was. *)
Theorem clicks_change_only_open (faqItems : list elem)
    (has_question : elem → bool) (cs : list elem)
    (d : gmap nat (gset string)) (e : elem) (c : string) :
  c ≠ "open" ∨ e ∉ faqItems →
  c ∈ classList (clicks faqItems has_question cs d) e ↔ c ∈ classList d e.
Proof.
  intros Hce. revert d. induction cs as [|item cs IH]; intros d; [done|].
  unfold clicks in *. cbn [fold_left]. rewrite IH. by apply click_keeps.
Qed.

Lemma clicks_change_only_open_witness :
  let d : gmap nat (gset string) :=
    {[ 1 := {[ "faq-item"; "open" ]}; 9 := {[ "open" ]} ]} in
  ("open" ∈ classList (clicks [1; 2] (fun _ => true) [2; 1; 2] d) 9
   ↔ "open" ∈ classList d 9) ∧
  ("faq-item" ∈ classList (clicks [1; 2] (fun _ => true) [2; 1; 2] d) 1
   ↔ "faq-item" ∈ classList d 1).
Proof.
  intros d. split.
  - apply (clicks_change_only_open [1; 2] (fun _ => true) [2; 1; 2] d 9 "open").
    right. set_solver.
  - apply (clicks_change_only_open [1; 2] (fun _ => true) [2; 1; 2] d 1
             "faq-item").
    left. discriminate.
Defined.

End FaqMoreFacts.

(** ** The page loader against the clock *)

Module PageLoaderClockFacts.
Import Dom DomFacts PageLoader PageLoaderFacts PageLoaderClock.

Lemma contains_add c e d : classList_contains c e (classList_add c e d) = true.
Proof.
  unfold classList_contains. apply bool_decide_eq_true.
  rewrite classList_add_eq. set_solver.
Qed.

(** The event loop on a state that is written out. *)
Lemma fire_due_idle f t l d a n ll :
  fire_due f t (mkState l d a n [] ll) = mkState l d a n [] ll.
Proof. by destruct f. Qed.

Lemma fire_due_wait f t l d a n due tk q ll :
  t < due →
  fire_due f t (mkState l d a n ((due, tk) :: q) ll)
  = mkState l d a n ((due, tk) :: q) ll.
Proof.
  intros Hlt. destruct f; [done|]. cbn [fire_due timers].
  destruct (Nat.leb_spec due t); [lia|done].
Qed.

Lemma fire_due_fire f t l d a n due tk q ll :
  due ≤ t →
  fire_due (S f) t (mkState l d a n ((due, tk) :: q) ll)
  = fire_due f t (run_task tk (mkState l d a (Nat.max n due) q ll)).
Proof.
  intros Hle. cbn [fire_due timers].
  destruct (Nat.leb_spec due t); [done|lia].
Qed.

Lemma run_remove l d a n q ll :
  run_task RemoveLoader (mkState l d a n q ll) = mkState l d false n q ll.
Proof. done. Qed.

Lemma run_hide half l d a n q ll :
  half = 500 →
  run_task HideAfterLoad (mkState l d a n q ll)
  = mkState l (classList_add "hidden" l d) a n
      (schedule (n + half) RemoveLoader q) ll.
Proof. by intros ->. Qed.

Lemma run_ceiling_hidden l d a n q ll :
  classList_contains "hidden" l d = true →
  run_task CeilingCheck (mkState l d a n q ll) = mkState l d a n q ll.
Proof. intros H. cbn [run_task loader doc]. by rewrite H. Qed.

Lemma run_ceiling_visible half l d a n q ll :
  half = 500 → classList_contains "hidden" l d = false →
  run_task CeilingCheck (mkState l d a n q ll)
  = mkState l (classList_add "hidden" l d) a n
      (schedule (n + half) RemoveLoader q) ll.
Proof. intros -> H. cbn [run_task loader doc]. by rewrite H. Qed.

Lemma schedule_nil due t : schedule due t [] = [(due, t)].
Proof. done. Qed.

Lemma schedule_behind due t d t' q :
  d ≤ due → schedule due t ((d, t') :: q) = (d, t') :: schedule due t q.
Proof.
  intros Hle. cbn [schedule]. destruct (Nat.leb_spec d due); [done|lia].
Qed.

Lemma schedule_before due t d t' q :
  due < d → schedule due t ((d, t') :: q) = (due, t) :: (d, t') :: q.
Proof.
  intros Hlt. cbn [schedule]. destruct (Nat.leb_spec d due); [lia|done].
Qed.

Lemma advance_to_unfold t l d a n q ll :
  advance_to t (mkState l d a n q ll)
  = set_now (Nat.max n t) (fire_due (weight q) t (mkState l d a n q ll)).
Proof. done. Qed.

Lemma set_now_unfold t l d a n q ll :
  set_now t (mkState l d a n q ll) = mkState l d a t q ll.
Proof. done. Qed.

Lemma on_load_listening half l d a n q :
  half = 500 →
  on_load (mkState l d a n q true)
  = mkState l d a n (schedule (n + half) HideAfterLoad q) true.
Proof. by intros ->. Qed.

Lemma on_load_deaf l d a n q :
  on_load (mkState l d a n q false) = mkState l d a n q false.
Proof. done. Qed.

Lemma weight_nil : weight [] = 0.
Proof. done. Qed.

Lemma weight_hide due q : weight ((due, HideAfterLoad) :: q) = S (S (weight q)).
Proof. done. Qed.

Lemma weight_ceiling due q : weight ((due, CeilingCheck) :: q) = S (S (weight q)).
Proof. done. Qed.

Lemma weight_remove due q : weight ((due, RemoveLoader) :: q) = S (weight q).
Proof. done. Qed.

Lemma newPageLoader_waiting ceiling l d rs t0 :
  ceiling = 3000 → rs ≠ Complete →
  newPageLoader (Some l) rs d t0
  = Some (mkState l d true t0 [(t0 + ceiling, CeilingCheck)] true).
Proof. intros ->. by destruct rs. Qed.

Lemma newPageLoader_complete half l d t0 :
  half = 500 →
  newPageLoader (Some l) Complete d t0
  = Some (mkState l (classList_add "hidden" l d) true t0
            [(t0 + half, RemoveLoader)] false).
Proof. by intros ->. Qed.

Lemma hiding_time_unfold half ceiling rs t0 load_at :
  half = 500 → ceiling = 3000 →
  hiding_time rs t0 load_at
  = match rs, load_at with
    | Complete, _ => t0
    | _, Some tl => Nat.min (tl + half) (t0 + ceiling)
    | _, None => t0 + ceiling
    end.
Proof. by intros -> ->. Qed.

Create Rewrite HintDb clock.

#[local] Hint Rewrite fire_due_idle run_remove schedule_nil
  advance_to_unfold set_now_unfold on_load_deaf
  weight_nil weight_hide weight_ceiling weight_remove contains_add : clock.

(** One step of the symbolic run: put the next timeout in its place in
    the queue, or decide whether the head of the queue is due. The two
    delays are kept behind names, [half] and [ceiling], with their values
    in the context. *)
Ltac clock_step :=
  autorewrite with clock;
  match goal with
  | Hh : ?half = 500 |- context [on_load (mkState _ _ _ _ _ true)] =>
      rewrite (on_load_listening half) by exact Hh
  | Hh : ?half = 500 |- context [run_task HideAfterLoad (mkState _ _ _ _ _ _)] =>
      rewrite (run_hide half) by exact Hh
  | Hh : ?half = 500, H : classList_contains "hidden" ?l ?d = false
    |- context [run_task CeilingCheck (mkState ?l ?d _ _ _ _)] =>
      rewrite (run_ceiling_visible half l d) by (exact Hh || exact H)
  | |- context [run_task CeilingCheck
                  (mkState ?l (classList_add "hidden" ?l ?d) _ _ _ _)] =>
      rewrite (run_ceiling_hidden l (classList_add "hidden" l d))
        by apply contains_add
  | |- context [schedule ?due _ ((?d, _) :: _)] =>
      destruct (le_lt_dec d due);
      [rewrite (schedule_behind due) by lia
      |rewrite (schedule_before due) by lia]
  | |- context [fire_due (S _) ?t (mkState _ _ _ _ ((?due, _) :: _) _)] =>
      destruct (le_lt_dec due t);
      [rewrite fire_due_fire by lia|rewrite fire_due_wait by lia]
  | |- context [fire_due 0 _ ?s] => change (fire_due 0 _ s) with s
  end.

Ltac clock_done :=
  autorewrite with clock; cbn [doc attached];
  repeat split; intros;
  first [ lia | reflexivity | apply contains_add
        | match goal with H : classList_contains _ _ _ = _ |- _ => exact H end ].

Ltac clock := repeat clock_step; try clock_done.

(** The loader goes through its phases on time. It starts to hide (gets
    the class [hidden]) at once when the page is complete already, and
    otherwise half a second after the load event or three seconds after
    its construction, whichever comes first, and not before; it is taken
    out of the document exactly half a second after it started to
    hide. *)
Theorem loader_phases (l : elem) (d : gmap nat (gset string))
    (rs : readyState) (t0 : nat) (load_at : option nat) (t : nat) (s : state) :
  "hidden" ∉ classList d l → load_after t0 load_at → t0 ≤ t →
  at_time l d rs t0 load_at t = Some s →
  let h := hiding_time rs t0 load_at in
  (t < h → classList_contains "hidden" l (doc s) = false) ∧
  (h ≤ t → classList_contains "hidden" l (doc s) = true) ∧
  (t < h + 500 → attached s = true) ∧
  (h + 500 ≤ t → attached s = false).
Proof.
  intros Hnot Hload Ht0 Hs.
  assert (classList_contains "hidden" l d = false) as Hc
    by (by apply bool_decide_eq_false).
  assert (∃ ceiling, ceiling = 3000) as [ceiling Hceiling] by eauto.
  assert (∃ half, half = 500) as [half Hhalf] by eauto.
  cbn zeta. rewrite (hiding_time_unfold half ceiling) by done.
  rewrite <- Hhalf. unfold at_time in Hs.
  destruct rs; cbv beta iota.
  3: rewrite (newPageLoader_complete half) in Hs by done.
  1, 2: rewrite (newPageLoader_waiting ceiling) in Hs by done.
  all: injection Hs as <-.
  all: destruct load_at as [tl|]; cbn [load_after] in Hload;
    [destruct (Nat.leb_spec tl t)|]; clock.
Qed.

Lemma loader_phases_witness :
  match at_time 7 ∅ Interactive 100 (Some 1800) 2400 with
  | Some s => classList_contains "hidden" 7 (doc s) = true ∧ attached s = true
  | None => False
  end.
Proof.
  destruct (at_time 7 ∅ Interactive 100 (Some 1800) 2400) as [s|] eqn:E;
    [|vm_compute in E; discriminate].
  destruct (loader_phases 7 ∅ Interactive 100 (Some 1800) 2400 s)
    as (_ & H2 & H3 & _).
  - cbn. set_solver.
  - cbn. lia.
  - lia.
  - exact E.
  - cbn [hiding_time] in *. split; [apply H2|apply H3]; lia.
Defined.

Lemma init_then_load_settles_witness :
  let s1 := on_load (set_now 1800 (mkState 7 ∅ true 100
                                     [(3100, CeilingCheck)] true)) in
  classList_contains "hidden" 7 (doc (settle s1)) = true ∧
  attached (settle s1) = false ∧ timers (settle s1) = [].
Proof.
  apply (init_then_load_settles 7 ∅ 100 Interactive (Some 1800)
           (mkState 7 ∅ true 100 [(3100, CeilingCheck)] true)).
  - cbn. set_solver.
  - reflexivity.
Defined.

End PageLoaderClockFacts.

(** ** The DOM-ready helper *)

Module ReadyFacts.
Import Ready.





End ReadyFacts.

(** ** Character-by-character reveal *)

Module CharacterRevealFacts.
Import CharacterReveal.

Lemma pieces_lookup text i :
  pieces text !! i =
  (fun char => if Ascii.eqb char " " then Space else Span (i * 30) char)
    <$> list_ascii_of_string text !! i.
Proof. unfold pieces. apply list_lookup_imap. Qed.

(** The split loses no character and staggers the rest: there is one
    piece per character of the text, in order; the space characters stay
    bare, every other character sits in a span of its own, and the span of
    the character at position [i] (spaces counted) is delayed by [30 * i]
    milliseconds. *)
Theorem character_reveal_staggers (text : string) (i : nat) (char : ascii) :
  list_ascii_of_string text !! i = Some char →
  map char_of (pieces text) = list_ascii_of_string text ∧
  length (pieces text) = String.length text ∧
  pieces text !! i
  = Some (if Ascii.eqb char " " then Space else Span (30 * i) char) ∧
  (∀ j delay c, pieces text !! j = Some (Span delay c) →
     delay = 30 * j ∧ c ≠ " "%char
     ∧ list_ascii_of_string text !! j = Some c).
Proof.
  intros Hi. split; [|split; [|split]].
  - apply list_eq. intros j. rewrite list_lookup_fmap, pieces_lookup.
    destruct (list_ascii_of_string text !! j) as [c|]; [|done]. cbn.
    destruct (Ascii.eqb c " ") eqn:E; [|done].
    apply Ascii.eqb_eq in E. by subst.
  - unfold pieces. rewrite length_imap.
    clear. induction text as [|a text IH]; [done|]. cbn. by rewrite IH.
  - rewrite pieces_lookup, Hi. cbn. by rewrite Nat.mul_comm.
  - intros j delay c. rewrite pieces_lookup.
    destruct (list_ascii_of_string text !! j) as [c'|]; [|done]. cbn.
    destruct (Ascii.eqb c' " ") eqn:E; [done|].
    intros [= <- <-]. apply Ascii.eqb_neq in E.
    split; [lia|]. split; done.
Qed.

Lemma character_reveal_staggers_witness :
  map char_of (pieces "go on") = list_ascii_of_string "go on" ∧
  pieces "go on" !! 3 = Some (Span 90 "o").
Proof.
  destruct (character_reveal_staggers "go on" 3 "o") as (H1 & _ & H3 & _).
  - reflexivity.
  - split; [exact H1|exact H3].
Defined.

Example character_reveal_markup :
  innerHTML "a b"
  = "<span class=" +:+ dquote +:+ "char" +:+ dquote +:+ " style=" +:+ dquote
    +:+ "transition-delay: 0ms" +:+ dquote +:+ ">a</span> "
    +:+ "<span class=" +:+ dquote +:+ "char" +:+ dquote +:+ " style=" +:+ dquote
    +:+ "transition-delay: 60ms" +:+ dquote +:+ ">b</span>".
Proof. vm_compute. reflexivity. Qed.

End CharacterRevealFacts.
